(** * kalman.py: constant-velocity Kalman filter, tracks and the box tracker

    A shallow embedding of [src/kalman.py] and the properties of its
    specification.

    Numbers.  The program computes with numpy floats.  Here every number is
    an element of an arbitrary real field [real] (exact arithmetic): sums,
    products and comparisons are the field's.  The two places where numpy
    leaves the field are modelled explicitly: a division by zero
    ([npfloat], [np_div]) and a linear solve with a singular matrix
    ([np_solve], which raises [LinAlgError]).

    Objects.  A Python object mutated in place is a record, and a method is
    a function from the object to the object after the call paired with
    what the call returned or raised: the object is returned in both cases,
    because an exception does not undo the assignments made before it. *)

From Stdlib Require Import String.
From HB Require Import structures.
From mathcomp Require Import boot order algebra.

Set Implicit Arguments.
Unset Strict Implicit.
Unset Printing Implicit Defensive.

Import GRing.Theory Num.Theory Order.Theory.
Local Open Scope ring_scope.

(** ** Exceptions and loops *)

(** The exceptions the program can raise. *)
Inductive exn := LinAlgError | KeyError | IndexError | ValueError.

(** What a call produces: a value, or an exception. *)
Inductive outcome (A : Type) := Return (a : A) | Raise (e : exn).
Arguments Raise {A} e.

Section Loop.
Variables (A S : Type).

(** [for x in xs: body], over the variables [s] the body assigns: the loop
    stops at the first exception, with the variables as they are then. *)
Fixpoint for_ (xs : seq A) (body : A -> S -> S * option exn) (s : S)
  : S * option exn :=
  if xs is x :: xs' then
    let: (s', r) := body x s in
    if r is Some e then (s', Some e) else for_ xs' body s'
  else (s, None).

End Loop.

(** [enumerate(xs)] *)
Definition enumerate (A : Type) (xs : seq A) : seq (nat * A) :=
  zip (iota 0 (size xs)) xs.

(** [xs[k]] for an index [k >= 0]: [None] stands for [IndexError]. *)
Definition seq_get (A : Type) (xs : seq A) (k : nat) : option A :=
  ohead (drop k xs).

(** ** Python dictionaries with integer keys

    Items are kept in insertion order, which is the order [items()]
    iterates in.  A dictionary never holds a key twice: [uniq (keys d)]. *)
Section Dict.
Variable V : Type.

Definition dict := seq (nat * V).

Definition keys (d : dict) : seq nat := [seq kv.1 | kv <- d].

(** [d[i]]: [None] stands for [KeyError]. *)
Fixpoint dict_get (d : dict) (i : nat) : option V :=
  if d is kv :: d' then if kv.1 == i then Some kv.2 else dict_get d' i
  else None.

(** [d[i] = v]: a present key keeps its place, a new one goes last. *)
Fixpoint dict_set (d : dict) (i : nat) (v : V) : dict :=
  if d is kv :: d' then
    if kv.1 == i then (i, v) :: d' else kv :: dict_set d' i v
  else [:: (i, v)].

(** [d.pop(i)]: the value and the dictionary without the key; [None] stands
    for [KeyError]. *)
Definition dict_pop (d : dict) (i : nat) : option (V * dict) :=
  if dict_get d i is Some v then Some (v, [seq kv <- d | kv.1 != i])
  else None.

End Dict.

(** ** [collections.deque] with a [maxlen] *)
Section Deque.
Variable T : Type.

Record deque := Deque { maxlen : nat; items : seq T }.

(** [d.append(x)]: the item is added on the right, and the leftmost item
    is dropped when the length then exceeds [maxlen]. *)
Definition deque_append (d : deque) (x : T) : deque :=
  let s := rcons (items d) x in
  Deque (maxlen d) (if (maxlen d < size s)%N then behead s else s).

(** [deque(xs, maxlen)]: the items of [xs] appended one by one. *)
Definition deque_init (xs : seq T) (n : nat) : deque :=
  foldl deque_append (Deque n [::]) xs.

End Deque.

(** ** numpy scalars and [numpy.linalg.solve] *)
Section Numpy.
Variable real : realFieldType.

(** The result of a numpy division: a number, an infinity with its sign,
    or nan. *)
Inductive npfloat := Fin (x : real) | Inf (positive : bool) | NaN.

(** [a / b] on numpy scalars: [0/0] is nan and [a/0] is the infinity of
    the sign of [a] (numpy warns and does not raise). *)
Definition np_div (a b : real) : npfloat :=
  if b == 0 then (if a == 0 then NaN else Inf (0 < a)) else Fin (a / b).

(** [1 - s] *)
Definition np_rsub1 (s : npfloat) : npfloat :=
  match s with
  | Fin x => Fin (1 - x)
  | Inf positive => Inf (~~ positive)
  | NaN => NaN
  end.

(** [a < b]: every comparison with nan is false. *)
Definition np_lt (a b : npfloat) : bool :=
  match a, b with
  | Fin x, Fin y => x < y
  | Fin _, Inf positive => positive
  | Inf positive, Fin _ => ~~ positive
  | Inf pa, Inf pb => ~~ pa && pb
  | _, _ => false
  end.

(** [numpy.linalg.solve(A, B)] in exact arithmetic: the solution [X] of
    [A X = B], and [LinAlgError] when [A] is singular. *)
Definition np_solve (n m : nat) (A : 'M[real]_n) (B : 'M[real]_(n, m))
  : outcome 'M[real]_(n, m) :=
  if A \in unitmx then Return (invmx A *m B) else Raise LinAlgError.

(** [np.square] of a vector. *)
Definition np_square (n : nat) (s : 'rV[real]_n) : 'rV[real]_n :=
  map_mx (fun a => a ^+ 2) s.

End Numpy.
Arguments NaN {real}.
Arguments Inf {real} positive.

(** ** [class KalmanTracker]: no control, no model noise *)
Module KalmanTracker.
Section Def.
Variable real : realFieldType.
Variable ndim : nat.

(** The attributes [__init__] sets ([ndim] is the index of the types). *)
Record obj := Obj {
  I : 'M[real]_ndim;
  Z : 'M[real]_ndim;
  H : 'M[real]_(ndim, ndim + ndim);
  R : 'M[real]_ndim;
  P0 : 'M[real]_(ndim + ndim)
}.

Definition init (sigma_z sigma_v : 'rV[real]_ndim) : obj :=
  let I := 1%:M in
  let Z := 0 in
  let H := row_mx I Z in
  let R := diag_mx (np_square sigma_z) in
  let Pv := diag_mx (np_square sigma_v) in
  Obj I Z H R (block_mx R Z Z Pv).

Definition start (self : obj) (z : 'cV[real]_ndim)
  : 'cV[real]_(ndim + ndim) * 'M[real]_(ndim + ndim) :=
  let vel : 'cV[real]_ndim := 0 in
  let x := col_mx z vel in
  let P := P0 self in
  (x, P).

Definition predict (self : obj) (x : 'cV[real]_(ndim + ndim))
    (P : 'M[real]_(ndim + ndim)) (dt : real)
  : 'cV[real]_(ndim + ndim) * 'M[real]_(ndim + ndim) :=
  let F := block_mx (I self) (dt *: I self) (Z self) (I self) in
  let x1 := F *m x in
  let P1 := F *m P *m F^T in
  (x1, P1).

Definition update (self : obj) (x : 'cV[real]_(ndim + ndim))
    (P : 'M[real]_(ndim + ndim)) (z : 'cV[real]_ndim) (dt : real)
  : outcome ('cV[real]_(ndim + ndim) * 'M[real]_(ndim + ndim)) :=
  let: (x1, P1) := predict self x P dt in
  let A := H self *m P1 *m (H self)^T + R self in
  let B := P1 *m (H self)^T in
  match np_solve A B^T with
  | Raise e => Raise e
  | Return X =>
    let K := X^T in
    let I := 1%:M in
    let G := I - K *m H self in
    let x2 := G *m x1 + K *m z in
    let P2 := G *m P1 in
    Return (x2, P2)
  end.

End Def.
End KalmanTracker.

(** ** Boxes *)
Section Boxes.
Variable real : realFieldType.

(** A box as the tuple of its edges (l, t, r, b). *)
Definition box : Type := real * real * real * real.

Definition box_area (l t r b : real) : real :=
  let w := Num.max 0 (r - l) in
  let h := Num.max 0 (b - t) in
  w * h.

Definition box_overlap (box1 box2 : box) : npfloat real :=
  let: (l1, t1, r1, b1) := box1 in
  let: (l2, t2, r2, b2) := box2 in
  let lx := Num.max l1 l2 in
  let tx := Num.max t1 t2 in
  let rx := Num.min r1 r2 in
  let bx := Num.min b1 b2 in
  let a1 := box_area l1 t1 r1 b1 in
  let a2 := box_area l2 t2 r2 b2 in
  let ax := box_area lx tx rx bx in
  let sim := np_div ax (Num.max a1 a2) in
  np_rsub1 sim.

(** Unpacking a vector of length 4 into four edges. *)
Definition edges (c : 'cV[real]_4) : box :=
  (c (inord 0) 0, c (inord 1) 0, c (inord 2) 0, c (inord 3) 0).

End Boxes.

(** ** [class Track]: single object state *)
Module Track.
Section Def.
Variable real : realFieldType.
Variable label : eqType.
Variable ndim : nat.

(** A row of the history: (t, z, x, P). *)
Definition sample : Type :=
  real * 'cV[real]_ndim * 'cV[real]_(ndim + ndim) * 'M[real]_(ndim + ndim).

Record obj := Obj {
  kalman : KalmanTracker.obj real ndim;
  l : label;
  t : real;
  x : 'cV[real]_(ndim + ndim);
  P : 'M[real]_(ndim + ndim);
  hist : deque sample
}.

Definition init (kalman : KalmanTracker.obj real ndim) (length : nat)
    (l : label) (t : real) (z : 'cV[real]_ndim) : obj :=
  let: (x, P) := KalmanTracker.start kalman z in
  Obj kalman l t x P (deque_init [:: (t, z, x, P)] length).

(** In [predict] and [update] the argument [t] of the source is written
    [t'], since [t self] is the attribute [self.t]. *)
Definition predict (self : obj) (t' : real)
  : 'cV[real]_(ndim + ndim) * 'M[real]_(ndim + ndim) :=
  let dt := t' - t self in
  let: (x1, P1) := KalmanTracker.predict (kalman self) (x self) (P self) dt in
  (x1, P1).

(** [update] assigns [self.t] before it calls the filter: when the filter
    raises, the object keeps the new [t] and its old [x], [P] and [hist]. *)
Definition update (self : obj) (t' : real) (z : 'cV[real]_ndim)
  : obj * option exn :=
  let dt := t' - t self in
  let self1 := Obj (kalman self) (l self) t' (x self) (P self) (hist self) in
  match KalmanTracker.update (kalman self) (x self) (P self) z dt with
  | Raise e => (self1, Some e)
  | Return (x2, P2) =>
    (Obj (kalman self) (l self) t' x2 P2
         (deque_append (hist self) (t', z, x2, P2)), None)
  end.

End Def.
End Track.

(** ** [Track.dataframe] *)
Section DataFrame.
Variable real : realFieldType.

(** The entries of a one-dimensional array. *)
Definition entries (n : nat) (v : 'cV[real]_n) : seq real :=
  [seq v i 0 | i <- enum 'I_n].

(** [np.vstack(rows)] of one-dimensional arrays: [ValueError] when there
    is no row, or when the rows do not have the same length. *)
Definition np_vstack (rs : seq (seq real)) : outcome (seq (seq real)) :=
  if rs is r :: _ then
    if all (fun r' => size r' == size r) rs then Return rs
    else Raise ValueError
  else Raise ValueError.

(** A data frame: its column names and its rows. *)
Record DataFrame := Frame { columns : seq string; values : seq (seq real) }.

(** [pd.DataFrame(data, columns=columns)] for a two-dimensional array:
    [ValueError] when a row has not one value per column. *)
Definition pd_DataFrame (data : seq (seq real)) (columns : seq string)
  : outcome DataFrame :=
  if all (fun r => size r == size columns) data then
    Return (Frame columns data)
  else Raise ValueError.

End DataFrame.

Section TrackDataFrame.
Variable real : realFieldType.
Variable label : eqType.
Variable ndim : nat.
Local Open Scope string_scope.

(** [np.hstack(h[:3])] *)
Definition hstack3 (h : Track.sample real ndim) : seq real :=
  let: (t, z, x, _) := h in t :: entries z ++ entries x.

(** The [columns] of [dataframe]. *)
Definition dataframe_columns : seq string :=
  [:: "t"; "x"; "y"; "w"; "h";
      "kx"; "ky"; "kw"; "kh";
      "vx"; "vy"; "vw"; "vh"].

Definition dataframe (self : Track.obj real label ndim)
  : outcome (DataFrame real) :=
  match np_vstack [seq hstack3 h | h <- items (Track.hist self)] with
  | Raise e => Raise e
  | Return data => pd_DataFrame data dataframe_columns
  end.

End TrackDataFrame.

(** ** [class BoxTracker] *)

(** [kalman_args] *)
Definition kalman_args (real : realFieldType)
  : 'rV[real]_4 * 'rV[real]_4 :=
  (const_mx (5%:R / 100%:R), const_mx (5%:R / 10%:R)).

Module BoxTracker.
Section Def.
Variable real : realFieldType.
Variable label : eqType.

Notation track := (Track.obj real label 4).

(** An entry of [boxes]: a label and the four coordinates. *)
Definition entry : Type := label * 'cV[real]_4.

(** A candidate pair: (index in [boxes], track id, cost). *)
Definition cand : Type := nat * nat * npfloat real.

Record obj := Obj {
  timeout : real;
  cutoff : real;
  length : nat;
  kalman : KalmanTracker.obj real 4;
  nextid : nat;
  tracks : dict track
}.

Definition reset (self : obj) : obj :=
  Obj (timeout self) (cutoff self) (length self) (kalman self) 0 [::].

(** [__init__]: the attributes, then [reset()]. *)
Definition init (timeout cutoff : real) (length : nat) : obj :=
  let: (sigma_z, sigma_v) := kalman_args real in
  reset (Obj timeout cutoff length (KalmanTracker.init sigma_z sigma_v)
             0 [::]).

Definition add (self : obj) (l : label) (t : real) (z : 'cV[real]_4)
  : obj * nat :=
  let i := nextid self in
  let self1 := Obj (timeout self) (cutoff self) (length self) (kalman self)
                   (nextid self).+1 (tracks self) in
  let trk := Track.init (kalman self1) (length self1) l t z in
  (Obj (timeout self1) (cutoff self1) (length self1) (kalman self1)
       (nextid self1) (dict_set (tracks self1) i trk), i).

Definition pop (self : obj) (i : nat) : obj * outcome track :=
  if dict_pop (tracks self) i is Some (trk, d) then
    (Obj (timeout self) (cutoff self) (length self) (kalman self)
         (nextid self) d, Return trk)
  else (self, Raise KeyError).

(** *** The phases of [update] *)

(** "compute all pairs with difference below cutoff": the two nested
    loops, over the list [errs] they append to. *)
Definition pairs (self : obj)
    (locs : dict ('cV[real]_(4 + 4) * 'M[real]_(4 + 4)))
    (boxes : seq entry) : seq cand * option exn :=
  for_ (enumerate boxes)
    (fun '(k1, (l1, c1)) errs =>
       for_ (tracks self)
         (fun '(i2, trk) errs =>
            if dict_get locs i2 is Some (x1, P1) then
              let: (l2, c2) := (Track.l trk, usubmx x1) in
              if l1 == l2 then
                let e := box_overlap (edges c1) (edges c2) in
                if np_lt e (Fin (cutoff self)) then
                  (rcons errs (k1, i2, e), None)
                else (errs, None)
              else (errs, None)
            else (errs, Some KeyError))
         errs)
    [::].

(** [min(errs, key=itemgetter(2))]: the first item no later item is
    smaller than; [None] stands for the [ValueError] of an empty list. *)
Definition min_cost (errs : seq cand) : option cand :=
  if errs is c :: errs' then
    Some (foldl (fun best c' => if np_lt c'.2 best.2 then c' else best)
                c errs')
  else None.

(** "unravel match in decreasing order of similarity":
    [n] iterations of the loop [for _ in range(len(errs))] are left. *)
Fixpoint unravel (n : nat) (errs final : seq cand)
  : seq cand * option exn :=
  if n is n'.+1 then
    if min_cost errs is Some (k, j, e) then
      let final := rcons final (k, j, e) in
      let errs := [seq c <- errs | (c.1.1 != k) && (c.1.2 != j)] in
      if size errs == 0%N then (final, None) else unravel n' errs final
    else (final, Some ValueError)
  else (final, None).

(** [self.tracks = d] *)
Definition set_tracks (self : obj) (d : dict track) : obj :=
  Obj (timeout self) (cutoff self) (length self) (kalman self)
      (nextid self) d.

(** "update positive matches": the body of the loop, over [self] and
    [mapper].  The track is updated in place, so the registry holds it as
    [Track.update] left it, also when that call raised. *)
Definition commit_body (t : real) (boxes : seq entry) (c : cand)
    (vars : obj * dict nat) : obj * dict nat * option exn :=
  let: (k, j, e) := c in
  let: (self, mapper) := vars in
  if seq_get boxes k is Some (_, c) then
    if dict_get (tracks self) j is Some trk then
      let: (trk, r) := Track.update trk t c in
      let self := set_tracks self (dict_set (tracks self) j trk) in
      if r is Some ex then (self, mapper, Some ex)
      else (self, dict_set mapper k j, None)
    else (self, mapper, Some KeyError)
  else (self, mapper, Some IndexError).

Definition commit (self : obj) (t : real) (boxes : seq entry)
    (final : seq cand) : obj * dict nat * option exn :=
  for_ final (commit_body t boxes) (self, [::]).

(** "create new tracks for non-matches": the body of the loop, over
    [self], [mapper] and [match]. *)
Definition create_body (t : real) (kb : nat * entry)
    (vars : obj * dict nat * seq nat)
  : obj * dict nat * seq nat * option exn :=
  let: (k, (l, c)) := kb in
  let: (self, mapper, match_) := vars in
  let: (self, mapper) :=
    if k \notin keys mapper then
      let: (self, i) := add self l t c in (self, dict_set mapper k i)
    else (self, mapper) in
  if dict_get mapper k is Some i then (self, mapper, rcons match_ i, None)
  else (self, mapper, match_, Some KeyError).

Definition create (self : obj) (t : real) (boxes : seq entry)
    (mapper : dict nat) : obj * dict nat * seq nat * option exn :=
  for_ (enumerate boxes) (create_body t) (self, mapper, [::]).

(** "clear out old tracks": the body of the loop of [done], over [self]
    and [done]. *)
Definition evict_body (i : nat) (vars : obj * dict track)
  : obj * dict track * option exn :=
  let: (self, done) := vars in
  match pop self i with
  | (self, Return trk) => (self, dict_set done i trk, None)
  | (self, Raise e) => (self, done, Some e)
  end.

Definition evict (self : obj) (t : real)
  : obj * dict track * option exn :=
  let idone :=
    [seq it.1 | it <- tracks self & t > Track.t it.2 + timeout self] in
  for_ idone evict_body (self, [::]).

(** [update] up to and including the creation of the new tracks:
    the registry then, and [match]. *)
Definition assign (self : obj) (t : real) (boxes : seq entry)
  : obj * outcome (seq nat) :=
  let locs := [seq (it.1, Track.predict it.2 t) | it <- tracks self] in
  let: (errs, r) := pairs self locs boxes in
  if r is Some e then (self, Raise e) else
  let: (final, r) := unravel (size errs) errs [::] in
  if r is Some e then (self, Raise e) else
  let: (self, mapper, r) := commit self t boxes final in
  if r is Some e then (self, Raise e) else
  let: (self, mapper, match_, r) := create self t boxes mapper in
  if r is Some e then (self, Raise e) else
  (self, Return match_).

Definition update (self : obj) (t : real) (boxes : seq entry)
  : obj * outcome (seq nat * dict track) :=
  match assign self t boxes with
  | (self, Raise e) => (self, Raise e)
  | (self, Return match_) =>
    let: (self, done, r) := evict self t in
    if r is Some e then (self, Raise e) else (self, Return (match_, done))
  end.

End Def.
End BoxTracker.

(** * The vocabulary of the properties *)

(** ** Covariances *)
Section FilterSpec.
Variable real : realFieldType.

Definition symmetric n (A : 'M[real]_n) : Prop := A^T = A.

(** The quadratic form of [A] at the row vector [v]. *)
Definition qform n (A : 'M[real]_n) (v : 'rV[real]_n) : real :=
  (v *m A *m v^T) 0 0.

Definition psd n (A : 'M[real]_n) : Prop := forall v, 0 <= qform A v.

(** The transition matrix of [predict]. *)
Definition transition ndim (dt : real) : 'M[real]_(ndim + ndim) :=
  block_mx 1%:M (dt *: 1%:M) 0 1%:M.

End FilterSpec.

(** ** Histories of tracks *)
Section TrackSpec.
Variable real : realFieldType.
Variable label : eqType.
Variable ndim : nat.
Notation track := (Track.obj real label ndim).
Implicit Types (trk : track) (t : real) (z : 'cV[real]_ndim).

(** A caller making the calls [trk.update(t, z)] for the [(t, z)] of [us]
    in turn (going on after a call that raised): the track at the end and
    the number of calls that returned. *)
Fixpoint updates trk (us : seq (real * 'cV[real]_ndim)) : track * nat :=
  if us is u :: us' then
    let: (trk1, r) := Track.update trk u.1 u.2 in
    let: (trk2, k) := updates trk1 us' in
    (trk2, if r is None then k.+1 else k)
  else (trk, 0%N).

Definition capacity trk : nat := maxlen (Track.hist trk).

Definition history trk : seq (Track.sample real ndim) :=
  items (Track.hist trk).

End TrackSpec.

(** ** Greedy association *)
Section GreedySpec.
Variable real : realFieldType.
Notation cand := (BoxTracker.cand real).
Implicit Types (a : npfloat real) (c m : cand).
Implicit Types (errs final pre post : seq cand).

(** Not nan. *)
Definition is_number a : bool := if a is NaN then false else true.

(** The candidates kept when [m] is committed: those that share neither
    its index in [boxes] nor its track id. *)
Definition discard m errs : seq cand :=
  [seq c <- errs | (c.1.1 != m.1.1) && (c.1.2 != m.1.2)].

(** [m] is the first candidate of smallest cost of [pre ++ m :: post]. *)
Definition first_min pre m post : bool :=
  all (fun c => np_lt m.2 c.2) pre && all (fun c => ~~ np_lt c.2 m.2) post.

(** Greedy association, as the specification words it. *)
Inductive greedy : seq cand -> seq cand -> Prop :=
| greedy_nil : greedy [::] [::]
| greedy_cons pre m post final :
    first_min pre m post ->
    greedy (discard m (pre ++ m :: post)) final ->
    greedy (pre ++ m :: post) (m :: final).

Definition costs_are_numbers errs : bool := all (fun c => is_number c.2) errs.

End GreedySpec.

(** ** The registry *)
Section RegistrySpec.
Variable real : realFieldType.
Variable label : eqType.
Notation track := (Track.obj real label 4).
Notation registry := (BoxTracker.obj real label).
Notation entry := (BoxTracker.entry real label).
Notation cand := (BoxTracker.cand real).
Implicit Types (self : registry) (t : real) (boxes : seq entry).
Implicit Types (c : cand) (errs final : seq cand) (mapper : dict nat).
Local Open Scope nat_scope.

Definition inv self : bool :=
  uniq (keys (BoxTracker.tracks self))
  && all (fun i => i < BoxTracker.nextid self)%N (keys (BoxTracker.tracks self)).

(** [locs] *)
Definition predictions self t
  : dict ('cV[real]_(4 + 4) * 'M[real]_(4 + 4)) :=
  [seq (it.1, Track.predict it.2 t) | it <- BoxTracker.tracks self].

(** [errs] after the two nested loops, and [final]. *)
Definition candidates self t boxes : seq cand :=
  (BoxTracker.pairs self (predictions self t) boxes).1.

Definition matches self t boxes : seq cand :=
  let errs := candidates self t boxes in
  (BoxTracker.unravel (size errs) errs [::]).1.

(** A candidate of this frame: its cost is below the cutoff, its track is
    in the registry and its index is one of [boxes]. *)
Definition candidate_of self boxes c : bool :=
  [&& np_lt c.2 (Fin (BoxTracker.cutoff self)),
      c.1.2 \in keys (BoxTracker.tracks self) & (c.1.1 < size boxes)%N].

(** What a call leaves as it is in every case: the configuration, the
    counter and the ids of the tracks. *)
Definition same_config self self' : Prop :=
  [/\ BoxTracker.timeout self' = BoxTracker.timeout self,
      BoxTracker.cutoff self' = BoxTracker.cutoff self,
      BoxTracker.length self' = BoxTracker.length self
    & BoxTracker.kalman self' = BoxTracker.kalman self].

Definition same_ids self self' : Prop :=
  BoxTracker.nextid self' = BoxTracker.nextid self
  /\ keys (BoxTracker.tracks self') = keys (BoxTracker.tracks self).

(** The track ids of the committed matches. *)
Definition matched self t boxes : seq nat :=
  [seq c.1.2 | c <- matches self t boxes].

(** [mapper] after the matches of [final] are committed. *)
Definition mapper_of final : dict nat :=
  foldl (fun m c => dict_set m c.1.1 c.1.2) [::] final.

(** [match] as the creation loop builds it from detection [k] on, when the
    counter is [n]: the track of [mapper] for a matched detection, the
    counter (then incremented) for an unmatched one. *)
Fixpoint match_ids mapper (n k : nat) boxes : seq nat :=
  if boxes is _ :: boxes' then
    if dict_get mapper k is Some j then j :: match_ids mapper n k.+1 boxes'
    else n :: match_ids mapper n.+1 k.+1 boxes'
  else [::].

(** The tracks the creation loop adds, with their ids. *)
Fixpoint new_tracks (kalman : KalmanTracker.obj real 4) (length : nat)
    (t : real) mapper (n k : nat) boxes : dict track :=
  if boxes is (l, c) :: boxes' then
    if dict_get mapper k is Some _ then
      new_tracks kalman length t mapper n k.+1 boxes'
    else (n, Track.init kalman length l t c)
           :: new_tracks kalman length t mapper n.+1 k.+1 boxes'
  else [::].

(** Track [i] was updated or created at time [t]. *)
Definition seen_at (d : dict track) t i : Prop :=
  exists2 trk, dict_get d i = Some trk & Track.t trk = t.

(** The tracks [update] evicts at time [t]. *)
Definition stale self t (it : nat * track) : bool :=
  (t > Track.t it.2 + BoxTracker.timeout self)%R.

(** [trk] with [self.t = t] assigned and nothing else changed: the track
    [Track.update] leaves when the filter raises. *)
Definition touched (trk : track) t : track :=
  Track.Obj (Track.kalman trk) (Track.l trk) t (Track.x trk) (Track.P trk)
            (Track.hist trk).


(** A call a user of the registry makes. *)
Inductive call :=
| Add (l : label) (t : real) (z : 'cV[real]_4)
| Pop (i : nat)
| Update (t : real) (boxes : seq entry).

(** The registry after a call (also after one that raised) and the ids the
    call gave to new tracks: the id [add] returns, and the ids of [match]
    that named no track of the registry before the [update]. *)
Definition step self (c : call) : registry * seq nat :=
  match c with
  | Add l t z => let: (self', i) := BoxTracker.add self l t z in (self', [:: i])
  | Pop i => ((BoxTracker.pop self i).1, [::])
  | Update t boxes =>
    let: (self', r) := BoxTracker.update self t boxes in
    (self', if r is Return (match_, _) then
              [seq i <- match_ | i \notin keys (BoxTracker.tracks self)]
            else [::])
  end.

Fixpoint run self (cs : seq call) : registry * seq nat :=
  if cs is c :: cs' then
    let: (self1, ids1) := step self c in
    let: (self2, ids2) := run self1 cs' in
    (self2, ids1 ++ ids2)
  else (self, [::]).

End RegistrySpec.

(** ** A filter that cannot be updated *)
Section NoiselessSpec.
Variable real : realFieldType.
Variable label : eqType.
Notation registry := (BoxTracker.obj real label).

(** A filter with no measurement noise and no velocity prior. *)
Definition noiseless ndim : KalmanTracker.obj real ndim :=
  KalmanTracker.init 0 0.

(** The box with edges (0, 0, 1, 1). *)
Definition unit_box : 'cV[real]_4 := \col_i (if (i < 2)%N then 0 else 1).

(** A registry whose filter is noiseless, holding one track created at
    time 0 from the unit box. *)
Definition noiseless_registry (timeout cutoff : real) (length : nat)
    (l : label) : registry :=
  (BoxTracker.add
     (BoxTracker.Obj timeout cutoff length (noiseless 4) 0 [::])
     l 0 unit_box).1.

End NoiselessSpec.

(** ** Invariants of the registry and of the association *)
Section EverySpec.
Variable V : Type.

(** Every value of the dictionary satisfies [P]. *)
Fixpoint every (P : V -> Prop) (d : dict V) : Prop :=
  if d is kv :: d' then P kv.2 /\ every P d' else True.

End EverySpec.

Section EachSpec.
Variable A : Type.

(** Every item of the list satisfies [P]. *)
Fixpoint each (P : A -> Prop) (xs : seq A) : Prop :=
  if xs is x :: xs' then P x /\ each P xs' else True.

End EachSpec.

Section SoundSpec.
Variable real : realFieldType.
Variable label : eqType.
Notation track := (Track.obj real label 4).
Notation registry := (BoxTracker.obj real label).

(** A filter whose measurement noise is nowhere 0. *)
Definition noisy ndim (kalman : KalmanTracker.obj real ndim) : Prop :=
  exists sigma_z sigma_v : 'rV[real]_ndim,
    (forall i, sigma_z 0 i != 0)
    /\ kalman = KalmanTracker.init sigma_z sigma_v.

(** A track of the filter [kalman] whose covariance is symmetric positive
    semi-definite. *)
Definition sound_track ndim (kalman : KalmanTracker.obj real ndim)
    (trk : Track.obj real label ndim) : Prop :=
  [/\ Track.kalman trk = kalman, symmetric (Track.P trk)
    & psd (Track.P trk)].

Definition sound (self : registry) : Prop :=
  noisy (BoxTracker.kalman self)
  /\ every (sound_track (BoxTracker.kalman self)) (BoxTracker.tracks self).

End SoundSpec.

Section PairingSpec.
Variable real : realFieldType.
Variable label : eqType.
Notation registry := (BoxTracker.obj real label).
Notation entry := (BoxTracker.entry real label).
Notation cand := (BoxTracker.cand real).

(** The candidate [c] pairs detection [c.1.1] of [boxes] with the live
    track [c.1.2]: their labels are equal, and [c.2] is the cost of the
    detection's box against the box predicted for the track at [t], below
    the cutoff. *)
Definition pairing (self : registry) (t : real) (boxes : seq entry)
    (c : cand) : Prop :=
  exists l z trk,
    [/\ seq_get boxes c.1.1 = Some (l, z),
        dict_get (BoxTracker.tracks self) c.1.2 = Some trk,
        l = Track.l trk,
        c.2 = box_overlap (edges z) (edges (usubmx (Track.predict trk t).1))
      & np_lt c.2 (Fin (BoxTracker.cutoff self))].

End PairingSpec.

Section LabelSpec.
Variable real : realFieldType.
Variable label : eqType.
Notation track := (Track.obj real label 4).
Notation registry := (BoxTracker.obj real label).
Notation entry := (BoxTracker.entry real label).

(** No detection of [boxes] has the label of a track of the registry. *)
Definition no_common_label (self : registry) (boxes : seq entry) : bool :=
  all (fun b : entry =>
         all (fun it : nat * track => b.1 != Track.l it.2)
             (BoxTracker.tracks self))
      boxes.

End LabelSpec.

Section LastSpec.
Variable real : realFieldType.
Variable label : eqType.
Variable ndim : nat.

(** The last sample of the history holds the [x] and [P] of the track. *)
Definition last_is_current (trk : Track.obj real label ndim) : Prop :=
  exists t0 z0,
    ohead (rev (history trk)) = Some (t0, z0, Track.x trk, Track.P trk).

End LastSpec.

Section LabelledSpec.
Variable real : realFieldType.
Variable label : eqType.
Notation registry := (BoxTracker.obj real label).

(** The id [i] was issued, and names no track or a track of label [l]. *)
Definition labelled (i : nat) (l : label) (self : registry) : Prop :=
  (i < BoxTracker.nextid self)%N
  /\ forall trk, dict_get (BoxTracker.tracks self) i = Some trk ->
       Track.l trk = l.

End LabelledSpec.

Section FilterTheory.
Variable real : realFieldType.

Lemma qformD n (A B : 'M[real]_n) v :
  qform (A + B) v = qform A v + qform B v.
Proof. by rewrite /qform mulmxDr mulmxDl mxE. Qed.

Lemma qform_congr n m (C : 'M[real]_(n, m)) (A : 'M[real]_m) v :
  qform (C *m A *m C^T) v = qform A (v *m C).
Proof. by rewrite /qform trmx_mul !mulmxA. Qed.

Lemma qform_diag n (d v : 'rV[real]_n) :
  qform (diag_mx d) v = \sum_i v 0 i ^+ 2 * d 0 i.
Proof.
rewrite /qform mul_mx_diag mxE; apply: eq_bigr => i _.
by rewrite !mxE expr2 mulrAC.
Qed.

Lemma symmetricD n (A B : 'M[real]_n) :
  symmetric A -> symmetric B -> symmetric (A + B).
Proof. by rewrite /symmetric linearD /= => -> ->. Qed.

Lemma psdD n (A B : 'M[real]_n) : psd A -> psd B -> psd (A + B).
Proof. by move=> hA hB v; rewrite qformD addr_ge0. Qed.

Lemma symmetric_diag n (d : 'rV[real]_n) : symmetric (diag_mx d).
Proof. exact: tr_diag_mx. Qed.

Lemma psd_diag_square n (s : 'rV[real]_n) : psd (diag_mx (np_square s)).
Proof.
move=> v; rewrite qform_diag; apply: sumr_ge0 => i _.
by rewrite !mxE mulr_ge0 // sqr_ge0.
Qed.

Lemma symmetric_congr n m (C : 'M[real]_(n, m)) (A : 'M[real]_m) :
  symmetric A -> symmetric (C *m A *m C^T).
Proof. by rewrite /symmetric !trmx_mul trmxK mulmxA => ->. Qed.

Lemma psd_congr n m (C : 'M[real]_(n, m)) (A : 'M[real]_m) :
  psd A -> psd (C *m A *m C^T).
Proof. by move=> hA v; rewrite qform_congr. Qed.

Lemma transitionD ndim (dt1 dt2 : real) :
  transition ndim dt2 *m transition ndim dt1 = transition ndim (dt1 + dt2).
Proof.
rewrite /transition mulmx_block !mulmx1 !mul1mx !mul0mx !mulmx0 !addr0 add0r.
by rewrite -scalerDl.
Qed.

Lemma transition0 ndim : transition ndim (0 : real) = 1%:M.
Proof. by rewrite /transition scale0r -scalar_mx_block. Qed.

Lemma predictE ndim (sz sv : 'rV[real]_ndim) x P dt :
  KalmanTracker.predict (KalmanTracker.init sz sv) x P dt =
  (transition ndim dt *m x, transition ndim dt *m P *m (transition ndim dt)^T).
Proof. by []. Qed.

(** C8.  Over exact arithmetic, predicting by [dt1] and then by [dt2] is
    predicting by [dt1 + dt2], for the state and for the covariance, and
    predicting by 0 changes neither. *)
Theorem predict_additive ndim (sigma_z sigma_v : 'rV[real]_ndim)
    (x : 'cV[real]_(ndim + ndim)) (P : 'M[real]_(ndim + ndim))
    (dt1 dt2 : real) :
  let kalman := KalmanTracker.init sigma_z sigma_v in
  (let: (x1, P1) := KalmanTracker.predict kalman x P dt1 in
   KalmanTracker.predict kalman x1 P1 dt2)
  = KalmanTracker.predict kalman x P (dt1 + dt2)
  /\ KalmanTracker.predict kalman x P 0 = (x, P).
Proof.
move=> kalman; rewrite /kalman !predictE; split.
  by rewrite !mulmxA transitionD -!mulmxA -trmx_mul transitionD.
by rewrite transition0 trmx1 !mul1mx mulmx1.
Qed.

Section Gain.
Variables (n m : nat) (H : 'M[real]_(m, n)) (R : 'M[real]_m).
Variable P1 : 'M[real]_n.
Hypothesis symP1 : symmetric P1.
Hypothesis symR : symmetric R.

Let A := H *m P1 *m H^T + R.
Let B := P1 *m H^T.
Hypothesis unitA : A \in unitmx.
Let K := (invmx A *m B^T)^T.
Let G := 1%:M - K *m H.

Lemma gain_symA : symmetric A.
Proof. exact: symmetricD (symmetric_congr _ symP1) symR. Qed.

Lemma gainE : K = B *m invmx A.
Proof. by rewrite /K trmx_mul trmxK trmx_inv gain_symA. Qed.

Lemma gain_solves : K *m A = B.
Proof. by rewrite gainE mulmxKV. Qed.

Lemma gain_residual : G *m B = K *m R.
Proof.
have HB : H *m B = A - R by rewrite /B mulmxA /A addrK.
rewrite /G mulmxBl mul1mx -mulmxA HB mulmxBr gain_solves.
by rewrite opprB addrCA subrr addr0.
Qed.

(** Joseph's form of the updated covariance. *)
Lemma joseph : G *m P1 = G *m P1 *m G^T + K *m R *m K^T.
Proof.
have -> : G^T = 1%:M - H^T *m K^T.
  by rewrite /G linearB /= trmx1 trmx_mul.
rewrite mulmxBr mulmx1 [_ *m (H^T *m _)]mulmxA -[G *m P1 *m H^T]mulmxA -/B.
by rewrite gain_residual subrK.
Qed.

Lemma symmetric_update : symmetric (G *m P1).
Proof.
rewrite joseph; apply: symmetricD; exact: symmetric_congr.
Qed.

Lemma psd_update : psd P1 -> psd R -> psd (G *m P1).
Proof. by move=> hP hR; rewrite joseph; apply: psdD; apply: psd_congr. Qed.

End Gain.

Lemma P0E ndim (sz sv : 'rV[real]_ndim) :
  KalmanTracker.P0 (KalmanTracker.init sz sv) =
  diag_mx (np_square (row_mx sz sv)).
Proof. by rewrite /np_square map_row_mx diag_mx_row. Qed.

(** A matrix whose quadratic form is positive away from 0 is invertible. *)
Lemma unitmx_posdef n (A : 'M[real]_n) :
  (forall v, v != 0 -> 0 < qform A v) -> A \in unitmx.
Proof.
move=> posA; rewrite unitmxE unitfE; apply/negP => /det0P[v vN0 vA0].
by have := posA v vN0; rewrite /qform vA0 mul0mx mxE ltxx.
Qed.

Lemma posdef_diag_square n (s : 'rV[real]_n) (v : 'rV[real]_n) :
  (forall i, s 0 i != 0) -> v != 0 -> 0 < qform (diag_mx (np_square s)) v.
Proof.
move=> sN0 /rV0Pn[i viN0]; rewrite lt0r psd_diag_square andbT.
rewrite qform_diag psumr_neq0.
  by move=> j _; rewrite mulr_ge0 ?sqr_ge0 // mxE sqr_ge0.
apply/hasP; exists i; first by rewrite mem_index_enum.
by rewrite /= !mxE mulr_gt0 // lt0r sqr_ge0 sqrf_eq0 ?viN0 ?sN0.
Qed.

(** With non-zero measurement noise the innovation covariance of a
    positive semi-definite covariance is invertible: the solve succeeds. *)
Lemma update_succeeds ndim (sigma_z sigma_v : 'rV[real]_ndim) x P z dt :
  (forall i, sigma_z 0 i != 0) -> psd P ->
  exists x2 P2,
    KalmanTracker.update (KalmanTracker.init sigma_z sigma_v) x P z dt
    = Return (x2, P2).
Proof.
move=> sN0 psdP; rewrite /KalmanTracker.update predictE /np_solve.
rewrite unitmx_posdef; last by eexists; eexists.
move=> v vN0; rewrite qformD ltr_wpDl ?posdef_diag_square //.
by rewrite qform_congr qform_congr.
Qed.

(** C7.  For a symmetric positive semi-definite covariance [P]: [start]
    returns [P0], which is symmetric positive semi-definite; [predict]
    returns [F P F^T], which is; and whenever the solve of [update]
    succeeds, [update] returns [(I - K H) P1] for the predicted covariance
    [P1] and a gain [K] with [K S = P1 H^T], and that matrix is symmetric
    positive semi-definite, for every [dt], [x] and [z]. *)
Theorem covariance_symmetric_psd ndim (sigma_z sigma_v : 'rV[real]_ndim)
    (P : 'M[real]_(ndim + ndim)) :
  symmetric P -> psd P ->
  let kalman := KalmanTracker.init sigma_z sigma_v in
  let H := KalmanTracker.H kalman in
  let R := KalmanTracker.R kalman in
  let P0 := KalmanTracker.P0 kalman in
  (forall z, (KalmanTracker.start kalman z).2 = P0)
  /\ symmetric P0 /\ psd P0
  /\ (forall x dt,
        let F := transition ndim dt in
        let P1 := (KalmanTracker.predict kalman x P dt).2 in
        P1 = F *m P *m F^T /\ symmetric P1 /\ psd P1)
  /\ (forall x z dt x2 P2,
        KalmanTracker.update kalman x P z dt = Return (x2, P2) ->
        let P1 := (KalmanTracker.predict kalman x P dt).2 in
        (exists2 K, K *m (H *m P1 *m H^T + R) = P1 *m H^T
                  & P2 = (1%:M - K *m H) *m P1)
        /\ symmetric P2 /\ psd P2).
Proof.
move=> symP psdP kalman H R P0.
have symR : symmetric R by exact: symmetric_diag.
have psdR : psd R by exact: psd_diag_square.
split=> //; split; first by rewrite /P0 P0E; exact: symmetric_diag.
split; first by rewrite /P0 P0E; exact: psd_diag_square.
split=> [x dt|x z dt x2 P2].
  by rewrite predictE /=; split=> //; split;
    [exact: symmetric_congr | exact: psd_congr].
rewrite /KalmanTracker.update predictE /np_solve -/H -/R.
set P1 := _ *m P *m _; have symP1 : symmetric P1 by exact: symmetric_congr.
have psdP1 : psd P1 by exact: psd_congr.
case: ifP => // unitA [_ <-] /=; split; last first.
  by split; [exact: symmetric_update | exact: psd_update].
by eexists; [exact: gain_solves | ].
Qed.

End FilterTheory.

Section BoxTheory.
Variable real : realFieldType.
Implicit Types l t r b : real.

Lemma box_area_ge0 l t r b : 0 <= box_area l t r b.
Proof. by rewrite /box_area mulr_ge0 // le_max lexx. Qed.

Lemma clamp_le (a c : real) : a <= c -> Num.max 0 a <= Num.max 0 c.
Proof. by move=> ac; rewrite ge_max !le_max lexx ac orbT. Qed.

(** The intersection is no larger than either box. *)
Lemma box_area_meet l1 t1 r1 b1 l2 t2 r2 b2 :
  let ax := box_area (Num.max l1 l2) (Num.max t1 t2)
                     (Num.min r1 r2) (Num.min b1 b2) in
  ax <= box_area l1 t1 r1 b1 /\ ax <= box_area l2 t2 r2 b2.
Proof.
have clamp_ge0 (a : real) : 0 <= Num.max 0 a by rewrite le_max lexx.
rewrite /box_area /=; split; apply: ler_pM => //;
  by apply: clamp_le; rewrite lerB // ?ge_min ?le_max ?lexx ?orbT.
Qed.

Lemma box_area_eq0 l t r b :
  (r <= l) || (b <= t) -> box_area l t r b = 0.
Proof.
rewrite /box_area => /orP[] h.
  by rewrite (max_idPl _) ?mul0r // subr_le0.
by rewrite [X in _ * X](max_idPl _) ?mulr0 // subr_le0.
Qed.

(** C2, amended.  When at least one of the two boxes has a positive area,
    the cost is the number 1 - (intersection area) / (larger of the two
    areas); it lies in [0, 1]; it is 0 for two identical boxes, and 1 for
    two disjoint boxes and when one of the boxes has area 0. *)
Theorem box_overlap_cost l1 t1 r1 b1 l2 t2 r2 b2 :
  let a1 := box_area l1 t1 r1 b1 in
  let a2 := box_area l2 t2 r2 b2 in
  let ax := box_area (Num.max l1 l2) (Num.max t1 t2)
                     (Num.min r1 r2) (Num.min b1 b2) in
  0 < Num.max a1 a2 ->
  let cost := 1 - ax / Num.max a1 a2 in
  [/\ box_overlap (l1, t1, r1, b1) (l2, t2, r2, b2) = Fin cost,
      0 <= cost <= 1,
      (l1, t1, r1, b1) = (l2, t2, r2, b2) -> cost = 0,
      [|| r1 <= l2, r2 <= l1, b1 <= t2 | b2 <= t1] -> cost = 1
    & (a1 == 0) || (a2 == 0) -> cost = 1].
Proof.
move=> a1 a2 ax m_gt0 cost.
have [ax1 ax2] := box_area_meet l1 t1 r1 b1 l2 t2 r2 b2.
have ax_ge0 : 0 <= ax by exact: box_area_ge0.
have ax0 : ax = 0 -> cost = 1 by rewrite /cost => ->; rewrite mul0r subr0.
split.
- by rewrite /box_overlap -/a1 -/a2 -/ax /np_div gt_eqF.
- rewrite /cost subr_ge0 gerBl divr_ge0 ?(ltW m_gt0) // andbT.
  by rewrite ler_pdivrMr // mul1r le_max ax1.
- case=> el et er eb; move: m_gt0; rewrite /cost /ax /a1 /a2 -el -et -er -eb.
  by rewrite !maxxx !minxx => /gt_eqF/negbT nz; rewrite divff ?subrr.
- move=> disjoint; apply/ax0/box_area_eq0; rewrite !ge_min !le_max.
  by case/or4P: disjoint => ->; rewrite ?orbT.
- move=> zero; apply/ax0/le_anti; rewrite ax_ge0 andbT.
  by case/orP: zero => /eqP <-.
Qed.

End BoxTheory.

Section DequeTheory.
Local Open Scope nat_scope.
Variable T : Type.
Implicit Types (d : deque T) (x : T).

Lemma maxlen_append d x : maxlen (deque_append d x) = maxlen d.
Proof. by []. Qed.

Lemma size_append d x :
  size (items d) <= maxlen d ->
  size (items (deque_append d x)) = minn (size (items d)).+1 (maxlen d).
Proof.
rewrite /deque_append /= size_rcons ltnS leq_eqVlt => /predU1P[eq_d|lt_d].
  by rewrite eq_d leqnn size_behead size_rcons /= eq_d (minn_idPr _).
by rewrite leqNgt lt_d /= size_rcons (minn_idPl _).
Qed.

Lemma items_append d x :
  size (items d) <= maxlen d ->
  items (deque_append d x) =
  if size (items d) == maxlen d then behead (rcons (items d) x)
  else rcons (items d) x.
Proof.
rewrite /deque_append /= size_rcons ltnS leq_eqVlt => /predU1P[->|lt_d].
  by rewrite leqnn eqxx.
by rewrite leqNgt lt_d (ltn_eqF lt_d).
Qed.

End DequeTheory.

Section TrackTheory.
Local Open Scope nat_scope.
Variable real : realFieldType.
Variable label : eqType.
Variable ndim : nat.
Notation track := (Track.obj real label ndim).
Implicit Types (trk : track) (l : label) (t : real) (z : 'cV[real]_ndim).

Lemma update_raise trk t z trk' e :
  Track.update trk t z = (trk', Some e) ->
  trk' = Track.Obj (Track.kalman trk) (Track.l trk) t (Track.x trk)
                   (Track.P trk) (Track.hist trk)
  /\ e = LinAlgError.
Proof.
rewrite /Track.update /KalmanTracker.update /np_solve /=.
by case: ifP => // _ [<- <-].
Qed.

Lemma update_return trk t z trk' :
  Track.update trk t z = (trk', None) ->
  [/\ Track.kalman trk' = Track.kalman trk, Track.l trk' = Track.l trk,
      Track.t trk' = t
    & Track.hist trk' =
      deque_append (Track.hist trk) (t, z, Track.x trk', Track.P trk')].
Proof.
rewrite /Track.update; case: KalmanTracker.update => [[x2 P2]|e] //.
by case=> <-.
Qed.

Lemma capacity_update trk t z :
  capacity (Track.update trk t z).1 = capacity trk.
Proof.
case E: (Track.update trk t z) => [trk' [e|]].
  by have [-> _] := update_raise E.
by have [_ _ _] := update_return E; rewrite /capacity /= => ->.
Qed.

Lemma history_le_update trk t z :
  size (history trk) <= capacity trk ->
  size (history (Track.update trk t z).1) <= capacity trk.
Proof.
move=> le_trk; case E: (Track.update trk t z) => [trk' [e|]].
  by have [-> _] := update_raise E.
have [_ _ _] := update_return E; rewrite /history /= => ->.
by rewrite size_append // geq_minr.
Qed.

Lemma capacity_init kalman length l t z :
  capacity (Track.init kalman length l t z) = length.
Proof. by []. Qed.

Lemma history_init kalman length l t z :
  history (Track.init kalman length l t z) =
  if length is 0 then [::]
  else [:: (t, z, (KalmanTracker.start kalman z).1, KalmanTracker.P0 kalman)].
Proof. by case: length. Qed.

Lemma history_update trk t z :
  size (history trk) <= capacity trk ->
  let: (trk', r) := Track.update trk t z in
  history trk' =
  if r is None then
    let s := rcons (history trk) (t, z, Track.x trk', Track.P trk') in
    if size (history trk) == capacity trk then behead s else s
  else history trk.
Proof.
move=> le_trk; case E: (Track.update trk t z) => [trk' [e|]].
  by have [-> _] := update_raise E.
have [_ _ _] := update_return E; rewrite /history /= => ->.
by rewrite items_append.
Qed.

Lemma updates_history trk us :
  size (history trk) <= capacity trk ->
  let: (trk', k) := updates trk us in
  [/\ capacity trk' = capacity trk,
      size (history trk') = minn (size (history trk) + k) (capacity trk)
    & size (history trk) + k <= capacity trk ->
      exists s, history trk' = history trk ++ s].
Proof.
elim: us trk => [|[t z] us IHus] trk le_trk /=.
  by rewrite addn0 (minn_idPl _) //; split=> // _; exists [::]; rewrite cats0.
have := history_update t z le_trk; have := history_le_update t z le_trk.
have := capacity_update trk t z.
case: (Track.update trk t z) => trk1 r /= cap1 le1 hist1.
rewrite -cap1 in le1; have := IHus trk1 le1.
case: (updates trk1 us) => trk2 k [cap2 size2 app2].
split; first by rewrite cap2.
  rewrite size2 cap1; case: r hist1 => [e|] -> //=.
  case: eqP => [eq_h|_]; last by rewrite size_rcons addSn addnS.
  by rewrite size_behead size_rcons /= eq_h !(minn_idPr _) ?leq_addr.
case: r hist1 => [e|] hist1 le_k.
  by rewrite cap1 hist1 in app2; have [//|s ->] := app2; exists s.
move: le_k; rewrite addnS => lt_k.
have lt_trk : size (history trk) < capacity trk.
  exact: leq_ltn_trans (leq_addr _ _) lt_k.
move: hist1; rewrite (ltn_eqF lt_trk) => hist1.
rewrite hist1 size_rcons addSn cap1 in app2.
by have [//|s ->] := app2; exists ((t, z, Track.x trk1, Track.P trk1) :: s);
  rewrite -cats1 -catA.
Qed.

Lemma history_le_init kalman length l t z :
  size (history (Track.init kalman length l t z)) <= length.
Proof. by rewrite history_init; case: length. Qed.

(** C6.  After any sequence of [update] calls on a track made with
    capacity [length], the history holds at most [length] samples, and so
    it does after one more call; a call that returns appends its sample
    (t, z, x, P) at the end and, the history being full, drops the oldest
    sample, keeping the order of the others; a call that raises leaves the
    history as it is. *)
Theorem history_bounded_fifo kalman length l t z us t' z' :
  let trk := (updates (Track.init kalman length l t z) us).1 in
  let: (trk', r) := Track.update trk t' z' in
  [/\ capacity trk = length, capacity trk' = length,
      size (history trk) <= length, size (history trk') <= length
    & history trk' =
      if r is None then
        let s := rcons (history trk) (t', z', Track.x trk', Track.P trk') in
        if size (history trk) == length then behead s else s
      else history trk].
Proof.
have le0 := history_le_init kalman length l t z.
have := updates_history us le0.
case: (updates _ us) => trk k /= [cap_init size_trk _].
have cap_trk : capacity trk = length by rewrite cap_init.
have le_trk : size (history trk) <= capacity trk.
  by rewrite size_trk cap_init geq_minr.
have := history_update t' z' le_trk; have := history_le_update t' z' le_trk.
have := capacity_update trk t' z'.
case: (Track.update trk t' z') => trk' r /=; rewrite cap_trk => cap' le' hist'.
by split=> //; rewrite -cap_trk.
Qed.

(** C10, amended.  With a capacity of at least 1, the history of a new
    track is the one sample (t, z, [z; 0], P0); after [k] further calls of
    [update] that returned it holds min (k + 1, capacity) samples, so it
    is never empty, and while [k] is below the capacity its first sample
    is still the initial one. *)
Theorem history_initial_sample kalman length l t z us :
  0 < length ->
  let trk0 := Track.init kalman length l t z in
  let first := (t, z, col_mx z 0, KalmanTracker.P0 kalman) in
  let: (trk, k) := updates trk0 us in
  [/\ history trk0 = [:: first],
      size (history trk) = minn k.+1 length,
      0 < size (history trk)
    & k < length -> ohead (history trk) = Some first].
Proof.
case: length => // n _ trk0 first.
have hist0 : history trk0 = [:: first] by rewrite /trk0 history_init.
have := @updates_history trk0 us; rewrite hist0 => /(_ isT).
case: (updates trk0 us) => trk k [_ size_trk app_trk].
split=> // [|lt_k]; first by rewrite size_trk add1n leq_min.
by have [|s ->] := app_trk; rewrite ?add1n.
Qed.

End TrackTheory.

Section NumpyOrder.
Variable real : realFieldType.
Implicit Types a b c : npfloat real.

Lemma np_lt_number a b : np_lt a b -> is_number a.
Proof. by case: a. Qed.

Lemma np_lt_trans b a c : np_lt a b -> np_lt b c -> np_lt a c.
Proof.
case: a b c => [x|[]|] [y|[]|] [z|[]|] //=; exact: lt_trans.
Qed.

Lemma np_lt_le_trans b a c :
  is_number c -> np_lt a b -> ~~ np_lt c b -> np_lt a c.
Proof.
case: a b c => [x|[]|] [y|[]|] [z|[]|] //= _ xy; rewrite -leNgt.
exact: lt_le_trans.
Qed.

Lemma np_lt_irrefl a : np_lt a a = false.
Proof. by case: a => [x|[]|] //=; rewrite ltxx. Qed.

End NumpyOrder.

Section Greedy.
Variable real : realFieldType.
Variable label : eqType.
Notation cand := (BoxTracker.cand real).
Notation min_cost := (@BoxTracker.min_cost real).
Notation unravel := (@BoxTracker.unravel real).
Implicit Types (c m : cand) (errs final pre post : seq cand).
Local Open Scope nat_scope.

Lemma min_cost_foldl pre best mid cs :
  costs_are_numbers (pre ++ best :: mid ++ cs) -> first_min pre best mid ->
  exists pre' m post',
    [/\ pre ++ best :: mid ++ cs = pre' ++ m :: post',
        foldl (fun b c' => if np_lt c'.2 b.2 then c' else b) best cs = m
      & first_min pre' m post'].
Proof.
elim: cs pre best mid => [|c cs IHcs] pre best mid /=.
  by rewrite cats0; exists pre, best, mid.
move=> nums /andP[min_pre min_mid]; case: ifP => [lt_c|ge_c].
  have [|//|pre' [m [post' [eq_errs eq_m min_m]]]] :=
         IHcs (pre ++ best :: mid) c [::].
  - by rewrite -catA /=.
  - rewrite /first_min andbT all_cat /= lt_c /=; apply/andP; split.
      by apply: sub_all min_pre => c'; apply: np_lt_trans.
    move: nums; rewrite /costs_are_numbers !all_cat /= all_cat.
    case/and3P=> _ _ /andP[num_mid _]; move: num_mid min_mid.
    elim: (mid) => //= c' mid' IH /andP[num_c' num_mid] /andP[ge_c' ge_mid].
    by rewrite (np_lt_le_trans num_c' lt_c ge_c') IH.
  by exists pre', m, post'; split=> //; rewrite -eq_errs -catA.
have [||pre' [m [post' [eq_errs eq_m min_m]]]] := IHcs pre best (rcons mid c).
- by rewrite cat_rcons.
- by rewrite /first_min min_pre all_rcons ge_c.
by exists pre', m, post'; split=> //; rewrite -eq_errs cat_rcons.
Qed.

Lemma min_costP c cs :
  costs_are_numbers (c :: cs) ->
  exists pre m post,
    [/\ c :: cs = pre ++ m :: post, min_cost (c :: cs) = Some m
      & first_min pre m post].
Proof.
move=> nums; have [//|//|pre [m [post [eq_errs eq_m min_m]]]] :=
  @min_cost_foldl [::] c [::] cs.
by exists pre, m, post; split=> //=; rewrite eq_m.
Qed.

Lemma size_discard pre m post :
  size (discard m (pre ++ m :: post)) <= size pre + size post.
Proof.
rewrite /discard filter_cat /= eqxx /= size_cat.
by rewrite leq_add // size_filter count_size.
Qed.

Lemma numbers_discard m errs :
  costs_are_numbers errs -> costs_are_numbers (discard m errs).
Proof.
rewrite /costs_are_numbers /discard all_filter; apply: sub_all => c num_c.
exact/implyP.
Qed.

Lemma unravelS n errs acc :
  unravel n.+1 errs acc =
  if min_cost errs is Some m then
    if size (discard m errs) == 0 then (rcons acc m, None)
    else unravel n (discard m errs) (rcons acc m)
  else (acc, Some ValueError).
Proof. by rewrite /=; case: min_cost => [[[k j] e]|]. Qed.

Lemma unravel_greedy n errs acc :
  0 < size errs <= n -> costs_are_numbers errs ->
  exists2 final, unravel n errs acc = (acc ++ final, None)
               & greedy errs final.
Proof.
elim: n errs acc => [|n IHn] [|c cs] acc // /andP[_ le_n] nums.
have [pre [m [post [eq_errs eq_m min_m]]]] := min_costP nums.
rewrite unravelS eq_m; have num' := numbers_discard m nums.
have le' : size (discard m (c :: cs)) <= n.
  rewrite eq_errs (leq_trans (size_discard _ _ _)) //.
  by move: le_n; rewrite eq_errs size_cat /= addnS.
case: eqP => [/size0nil nil'|/eqP]; last rewrite -lt0n => gt0.
  exists [:: m]; first by rewrite cats1.
  by rewrite eq_errs; apply: greedy_cons => //; rewrite -eq_errs nil'; left.
have [|final -> run] := IHn _ (rcons acc m) _ num'; first by rewrite gt0.
exists (m :: final); first by rewrite cat_rcons.
by rewrite [in X in greedy X]eq_errs; apply: greedy_cons => //; rewrite -eq_errs.
Qed.

Lemma first_min_inj pre1 m1 post1 pre2 m2 post2 :
  pre1 ++ m1 :: post1 = pre2 ++ m2 :: post2 ->
  first_min pre1 m1 post1 -> first_min pre2 m2 post2 ->
  [/\ pre1 = pre2, m1 = m2 & post1 = post2].
Proof.
elim: pre1 pre2 => [|c1 pre1 IHpre] [|c2 pre2] /=.
- by case=> -> ->.
- case=> <- -> /andP[_]; rewrite all_cat /= => /and3P[_ ge_m2 _].
  by rewrite /first_min /= (negPf ge_m2).
- case=> -> <- /andP[/= /andP[lt_m1 _] _] /andP[_].
  by rewrite all_cat /= lt_m1 andbF.
case=> <- eq_errs /andP[/= /andP[_ lt1] ge1] /andP[/= /andP[_ lt2] ge2].
by have [||-> -> ->] := IHpre _ eq_errs; rewrite /first_min ?lt1 ?lt2.
Qed.

Lemma greedy_inv errs final :
  greedy errs final ->
  if errs is [::] then final = [::]
  else exists pre m post final',
    [/\ errs = pre ++ m :: post, final = m :: final', first_min pre m post
      & greedy (discard m errs) final'].
Proof.
case=> // pre m post final' min_m run.
have: exists pre0 m0 post0 final0,
  [/\ pre ++ m :: post = pre0 ++ m0 :: post0, m :: final' = m0 :: final0,
      first_min pre0 m0 post0
    & greedy (discard m0 (pre ++ m :: post)) final0].
  by exists pre, m, post, final'.
by case: (pre).
Qed.

(** The relation is a function of the candidate list. *)
Lemma greedy_inj errs final1 final2 :
  greedy errs final1 -> greedy errs final2 -> final1 = final2.
Proof.
move=> run1; elim: run1 final2 => [|pre m post final min_m _ IHrun] final2.
  by move/greedy_inv.
move/greedy_inv; case E: (pre ++ m :: post) => [|c cs]; first by case: (pre) E.
case=> pre2 [m2 [post2 [final2' [eq_errs -> min_m2]]]].
rewrite -E in eq_errs *; have [_ <- _] := first_min_inj eq_errs min_m min_m2.
by move/IHrun->.
Qed.

Lemma greedy_all (P : pred cand) errs final :
  greedy errs final -> all P errs -> all P final.
Proof.
elim=> // pre m post final' _ _ IHrun all_errs /=.
have := all_errs; rewrite all_cat /= => /and3P[_ -> _] /=.
apply: IHrun; rewrite /discard all_filter; apply: sub_all all_errs => c Pc.
exact/implyP.
Qed.

Lemma notin_map (f : cand -> nat) (i : nat) final :
  (i \notin [seq f c | c <- final]) = all (fun c => f c != i) final.
Proof. by elim: final => //= c final <-; rewrite in_cons negb_or eq_sym. Qed.

Lemma all_discard m errs :
  all (fun c => (c.1.1 != m.1.1) && (c.1.2 != m.1.2)) (discard m errs).
Proof. exact: filter_all. Qed.

(** No two committed pairs share an index in [boxes] or a track id. *)
Lemma greedy_uniq errs final :
  greedy errs final ->
  uniq [seq c.1.1 | c <- final] && uniq [seq c.1.2 | c <- final].
Proof.
elim=> // pre m post final' _ run /andP[uniq_k uniq_j] /=.
have := greedy_all run (all_discard m _) => away.
rewrite uniq_k uniq_j !andbT !notin_map.
by apply/andP; split; apply: sub_all away => c /andP[].
Qed.

Lemma unravel_total errs :
  costs_are_numbers errs ->
  exists2 final, unravel (size errs) errs [::] = (final, None)
               & greedy errs final.
Proof.
case: errs => [|c cs] nums; first by exists [::] => //; left.
by apply: unravel_greedy => //; rewrite leqnn.
Qed.

(** C3.  On a list of candidates whose costs are below the cutoff, the
    loop ends without an exception with the list [final] that greedy
    association defines: each committed triple is the first triple of
    smallest cost among the remaining ones, and the triples sharing its
    detection index or its track id are then discarded, until none
    remains.  That list is the only one: the assignment is a function of
    the candidate list. *)
Theorem association_greedy (cutoff : real) errs :
  all (fun c => np_lt c.2 (Fin cutoff)) errs ->
  exists final,
    [/\ unravel (size errs) errs [::] = (final, None),
        greedy errs final
      & forall final', greedy errs final' -> final' = final].
Proof.
move=> below; have nums : costs_are_numbers errs.
  by apply: sub_all below => c; apply: np_lt_number.
have [final eq_final run] := unravel_total nums.
by exists final; split=> // final' /greedy_inj; apply.
Qed.

End Greedy.

Section LoopTheory.
Variables (A S : Type).
Implicit Types (xs : seq A) (body : A -> S -> S * option exn) (s : S).

(** An invariant of the body that holds before the loop holds after it,
    whether the loop ran to its end or stopped at an exception. *)
Lemma for_inv (Q : A -> bool) (I : S -> Prop) xs body s :
  all Q xs -> I s ->
  (forall x s, Q x -> I s -> I (body x s).1) ->
  I (for_ xs body s).1.
Proof.
move=> + + stepI; elim: xs s => [|x xs IHxs] s //= /andP[Qx Qxs] Is.
have := stepI x s Qx Is; case: (body x s) => s' [e|] //= Is'.
exact: IHxs.
Qed.

(** A loop whose body never raises runs to its end. *)
Lemma for_total (Q : A -> bool) (I : S -> Prop) xs body s :
  all Q xs -> I s ->
  (forall x s, Q x -> I s -> (body x s).2 = None /\ I (body x s).1) ->
  (for_ xs body s).2 = None /\ I (for_ xs body s).1.
Proof.
move=> + + stepI; elim: xs s => [|x xs IHxs] s //= /andP[Qx Qxs] Is.
have [] := stepI x s Qx Is; case: (body x s) => s' r /= -> Is'.
exact: IHxs.
Qed.

Lemma all_enumerate (B : Type) (ys : seq B) :
  all (fun p => p.1 < size ys)%N (enumerate ys).
Proof.
have: all (fun k => k < size ys)%N (iota 0 (size ys)).
  by apply/allP => k; rewrite mem_iota.
rewrite /enumerate; move: (size ys) (iota 0 _) => n ks.
elim: ks ys => [|k ks IHks] [|y ys] //= /andP[-> all_ks] /=.
exact: IHks.
Qed.

End LoopTheory.

Section DictTheory.
Variable V : Type.
Implicit Types (d : dict V) (i j : nat) (v : V).
Local Open Scope nat_scope.

Lemma dict_get_mem d i : isSome (dict_get d i) = (i \in keys d).
Proof.
elim: d => //= kv d IHd; rewrite in_cons eq_sym.
by case: eqP.
Qed.

Lemma dict_get_cat d1 d2 i :
  dict_get (d1 ++ d2) i =
  if i \in keys d1 then dict_get d1 i else dict_get d2 i.
Proof.
elim: d1 => //= kv d1 ->; rewrite in_cons eq_sym.
by case: eqP.
Qed.

Lemma dict_set_get d i v j :
  dict_get (dict_set d i v) j = if i == j then Some v else dict_get d j.
Proof.
elim: d => [|kv d IHd] /=; first by case: eqP.
case: (kv.1 =P i) => [<-|ne_i] /=; first by case: eqP.
by rewrite IHd; case: (kv.1 =P j) => // <-; case: eqP => // /esym.
Qed.

Lemma keys_dict_set d i v :
  keys (dict_set d i v) = if i \in keys d then keys d else rcons (keys d) i.
Proof.
elim: d => //= kv d IHd; rewrite in_cons eq_sym.
by case: eqP => [->|_] //=; rewrite IHd; case: ifP.
Qed.

Lemma dict_set_new d i v : i \notin keys d -> dict_set d i v = rcons d (i, v).
Proof.
elim: d => //= kv d IHd; rewrite in_cons negb_or eq_sym => /andP[ne_i /IHd->].
by rewrite (negPf ne_i).
Qed.

Lemma dict_get_filter (p : pred nat) d i :
  dict_get [seq kv <- d | p kv.1] i = if p i then dict_get d i else None.
Proof.
elim: d => [|kv d IHd] /=; first by case: ifP.
case: ifP => [p_kv|pN_kv] /=; rewrite IHd; case: eqP => // <-.
- by rewrite p_kv.
- by rewrite pN_kv.
Qed.

Lemma all_keys d : all (fun it => it.1 \in keys d) d.
Proof.
elim: d => //= kv d IHd; rewrite mem_head /=.
by apply: sub_all IHd => it; rewrite in_cons => ->; rewrite orbT.
Qed.

Lemma keys_cat d1 d2 : keys (d1 ++ d2) = keys d1 ++ keys d2.
Proof. exact: map_cat. Qed.

(** New keys are appended in the order they are set. *)
Lemma foldl_set_new d born :
  uniq (keys born) -> all (fun i => i \notin keys d) (keys born) ->
  foldl (fun d kv => dict_set d kv.1 kv.2) d born = d ++ born.
Proof.
elim: born d => [|[i v] born IHborn] d /=; first by rewrite cats0.
case/andP=> iN_born uniq_born /andP[iN_d allN_d].
rewrite dict_set_new // IHborn ?cat_rcons //.
apply/allP => j j_born; rewrite /keys map_rcons mem_rcons in_cons negb_or.
by rewrite (allP allN_d) // andbT; apply: contraNneq iN_born => /= <-.
Qed.

Lemma dict_get_in (d : dict V) i v :
  dict_get d i = Some v -> exists2 kv, kv = (i, v) & i \in keys d.
Proof. by move=> get_i; exists (i, v); rewrite // -dict_get_mem get_i. Qed.

Lemma filter_key_notin d i : i \notin keys d -> [seq kv <- d | kv.1 != i] = d.
Proof.
move=> iN_d; apply/all_filterP; elim: d iN_d => //= kv d IHd.
by rewrite in_cons negb_or eq_sym => /andP[-> /IHd].
Qed.

(** Popping a key of a dictionary. *)
Lemma dict_pop_mid d1 i v d2 :
  uniq (keys (d1 ++ (i, v) :: d2)) ->
  dict_pop (d1 ++ (i, v) :: d2) i = Some (v, d1 ++ d2).
Proof.
rewrite keys_cat cat_uniq /= negb_or => /and3P[_ /andP[iN_d1 _] /andP[iN_d2 _]].
rewrite /dict_pop dict_get_cat (negPf iN_d1) /= eqxx filter_cat /= eqxx /=.
by rewrite !filter_key_notin.
Qed.

End DictTheory.

Section RegistryTheory.
Local Arguments box_overlap : simpl never.
Variable real : realFieldType.
Variable label : eqType.
Notation track := (Track.obj real label 4).
Notation registry := (BoxTracker.obj real label).
Notation entry := (BoxTracker.entry real label).
Notation cand := (BoxTracker.cand real).
Implicit Types (self : registry) (t : real) (boxes : seq entry).
Implicit Types (c : cand) (errs final : seq cand) (mapper : dict nat).

Lemma keys_predictions self t :
  keys (predictions self t) = keys (BoxTracker.tracks self).
Proof. by rewrite /keys /predictions -map_comp. Qed.

Lemma pairs_total self t boxes :
  BoxTracker.pairs self (predictions self t) boxes
  = (candidates self t boxes, None)
  /\ all (candidate_of self boxes) (candidates self t boxes).
Proof.
rewrite /candidates /BoxTracker.pairs.
set outer := for_ _ _ _.
suff [] : outer.2 = None /\ all (candidate_of self boxes) outer.1.
  by case: outer => ? ? /= ->.
apply: (@for_total _ _ (fun p => p.1 < size boxes)%N
          (fun errs => all (candidate_of self boxes) errs)) => //.
  exact: all_enumerate.
case=> k1 [l1 c1] errs /= lt_k1 all_errs.
apply: (@for_total _ _ (fun it => it.1 \in keys (BoxTracker.tracks self))
          (fun errs => all (candidate_of self boxes) errs)) => //.
  exact: all_keys.
case=> i2 trk errs' /= i2_in all_errs'.
have := i2_in; rewrite -(keys_predictions self t) -dict_get_mem.
case: dict_get => // -[x1 P1] _.
case: eqP => // _; case: ifP => // below; split=> //=.
by rewrite all_rcons all_errs' /candidate_of /= below lt_k1 i2_in.
Qed.

Lemma seq_get_lt (B : Type) (ys : seq B) k :
  (k < size ys)%N -> exists y, seq_get ys k = Some y.
Proof.
by elim: ys k => [|y ys IHys] [|k] //=; [exists y | apply: IHys].
Qed.

Lemma commit_bodyE t boxes c self mapper :
  c.1.2 \in keys (BoxTracker.tracks self) -> (c.1.1 < size boxes)%N ->
  exists b trk,
    [/\ seq_get boxes c.1.1 = Some b,
        dict_get (BoxTracker.tracks self) c.1.2 = Some trk
      & BoxTracker.commit_body t boxes c (self, mapper) =
        let: (trk', r) := Track.update trk t b.2 in
        (BoxTracker.set_tracks self
           (dict_set (BoxTracker.tracks self) c.1.2 trk'),
         if r is Some _ then mapper else dict_set mapper c.1.1 c.1.2, r)].
Proof.
case: c => [[k j] e] /=; rewrite -dict_get_mem => j_in /seq_get_lt[[l b] get_k].
case get_j: dict_get j_in => [trk|] // _; exists (l, b), trk; split=> //.
by rewrite get_k /=; case: Track.update => trk' [ex|].
Qed.

Lemma commit_loop t boxes final self mapper :
  all (fun c => c.1.2 \in keys (BoxTracker.tracks self)) final ->
  all (fun c => c.1.1 < size boxes)%N final ->
  let: (self', mapper', r) :=
    for_ final (BoxTracker.commit_body t boxes) (self, mapper) in
  [/\ same_config self self' /\ same_ids self self',
      r = None \/ r = Some LinAlgError,
      forall i, i \notin [seq c.1.2 | c <- final] ->
        dict_get (BoxTracker.tracks self') i
        = dict_get (BoxTracker.tracks self) i
    & r = None ->
      mapper' = foldl (fun m c => dict_set m c.1.1 c.1.2) mapper final
      /\ forall j, j \in [seq c.1.2 | c <- final] ->
           exists2 trk, dict_get (BoxTracker.tracks self') j = Some trk
                      & Track.t trk = t].
Proof.
elim: final self mapper => [|c final IHfinal] self mapper /=.
  by move=> _ _; split=> //; left.
case/andP=> j_in js_in /andP[k_lt ks_lt].
have [b [trk [get_k get_j ->]]] := commit_bodyE t mapper j_in k_lt.
case upd: (Track.update trk t b.2) => [trk' r].
set self1 := BoxTracker.set_tracks _ _.
have keys1 : keys (BoxTracker.tracks self1) = keys (BoxTracker.tracks self).
  by rewrite /= keys_dict_set j_in.
have get1 i : i != c.1.2 ->
    dict_get (BoxTracker.tracks self1) i = dict_get (BoxTracker.tracks self) i.
  by rewrite /= dict_set_get eq_sym => /negPf->.
case: r upd => [ex|] upd.
  have [_ ->] := update_raise upd; split=> //; first by right.
  by move=> i; rewrite in_cons negb_or => /andP[/get1].
have [_ _ t_trk' _] := update_return upd.
have := IHfinal self1 (dict_set mapper c.1.1 c.1.2); rewrite keys1.
case: (for_ _ _ _) => [[self' mapper'] r] /(_ js_in ks_lt).
case=> -[config' [nextid' keys']] r_ok frame' ok'; split=> //.
- by split=> //; split; rewrite ?nextid' ?keys'.
- by move=> i; rewrite in_cons negb_or => /andP[/get1<- /frame'].
move=> /ok'[-> have_t]; split=> // j; rewrite in_cons.
have [j_final _|jN_final] := boolP (j \in [seq c0.1.2 | c0 <- final]).
  exact: have_t.
rewrite orbF => /eqP eq_j; rewrite eq_j in jN_final *; exists trk' => //.
by rewrite frame' // /self1 /= dict_set_get eqxx.
Qed.

Local Open Scope nat_scope.

Lemma match_ids_set mapper k0 i n k boxes :
  k0 < k ->
  match_ids (dict_set mapper k0 i) n k boxes = match_ids mapper n k boxes.
Proof.
elim: boxes n k => //= _ boxes IHboxes n k lt_k.
rewrite dict_set_get (ltn_eqF lt_k).
by case: dict_get => [j|]; rewrite IHboxes // ltnW.
Qed.

Lemma new_tracks_set kalman length t mapper k0 i n k boxes :
  k0 < k ->
  new_tracks kalman length t (dict_set mapper k0 i) n k boxes
  = new_tracks kalman length t mapper n k boxes.
Proof.
elim: boxes n k => //= -[l c] boxes IHboxes n k lt_k.
rewrite dict_set_get (ltn_eqF lt_k).
by case: dict_get => [j|]; rewrite IHboxes // ltnW.
Qed.

Lemma create_loop t boxes k self mapper match_ :
  let born := new_tracks (BoxTracker.kalman self) (BoxTracker.length self) t
                mapper (BoxTracker.nextid self) k boxes in
  let: (self', mapper', match', r) :=
    for_ (zip (iota k (size boxes)) boxes) (BoxTracker.create_body t)
         (self, mapper, match_) in
  [/\ r = None,
      match' = match_ ++ match_ids mapper (BoxTracker.nextid self) k boxes,
      same_config self self',
      BoxTracker.nextid self' = BoxTracker.nextid self + size born
    & BoxTracker.tracks self' =
      foldl (fun d kv => dict_set d kv.1 kv.2) (BoxTracker.tracks self) born].
Proof.
elim: boxes k self mapper match_ => [|[l c] boxes IHboxes] k self mapper match_.
  by rewrite /= cats0 addn0.
rewrite [for_ _ _ _]/= -dict_get_mem.
case get_k: (dict_get mapper k) => [j|] /=.
  have := IHboxes k.+1 self mapper (rcons match_ j).
  by rewrite get_k cat_rcons.
rewrite get_k dict_set_get eqxx.
set self1 := BoxTracker.Obj _ _ _ _ _ _.
have := IHboxes k.+1 self1 (dict_set mapper k (BoxTracker.nextid self))
          (rcons match_ (BoxTracker.nextid self)).
rewrite match_ids_set // new_tracks_set //=.
case: (for_ _ _ _) => [[[self' mapper'] match'] r] [-> -> config' -> ->].
by split; rewrite ?cat_rcons ?addSnnS.
Qed.

Section Creation.
Variables (kalman : KalmanTracker.obj real 4) (length : nat) (t : real).
Variable mapper : dict nat.

Lemma size_match_ids n k boxes : size (match_ids mapper n k boxes) = size boxes.
Proof.
by elim: boxes n k => //= _ boxes IH n k; case: dict_get => [j|] /=; rewrite IH.
Qed.

Lemma keys_new_tracks n k boxes :
  keys (new_tracks kalman length t mapper n k boxes)
  = iota n (size (new_tracks kalman length t mapper n k boxes)).
Proof.
elim: boxes n k => //= -[l c] boxes IH n k.
by case: dict_get => [j|] /=; rewrite IH.
Qed.

Lemma t_new_tracks n k boxes :
  all (fun it => Track.t it.2 == t)
      (new_tracks kalman length t mapper n k boxes).
Proof.
elim: boxes n k => //= -[l c] boxes IH n k.
by case: dict_get => [j|] /=; rewrite ?eqxx IH.
Qed.

(** An id of [match] is a new one or the track of a matched detection. *)
Lemma mem_match_ids n k boxes i :
  i \in match_ids mapper n k boxes ->
  (n <= i < n + size (new_tracks kalman length t mapper n k boxes))
  \/ exists2 k', k <= k' & dict_get mapper k' = Some i.
Proof.
elim: boxes n k => //= -[l c] boxes IH n k.
case get_k: dict_get => [j|] /=; rewrite in_cons => /predU1P[->|/IH[]].
- by right; exists k.
- by left.
- by case=> k' /ltnW; right; exists k'.
- by rewrite leqnn -addn1 leq_add2l; left.
- by rewrite addSnnS => /andP[/ltnW-> ->]; left.
- by case=> k' /ltnW; right; exists k'.
Qed.

(** The tracks of [mapper] are below the counter [n0], and no two
    detections have the same track. *)
Variable n0 : nat.
Hypothesis mapper_old : forall k j, dict_get mapper k = Some j -> j < n0.
Hypothesis mapper_inj :
  forall k1 k2 j,
    dict_get mapper k1 = Some j -> dict_get mapper k2 = Some j -> k1 = k2.

Lemma uniq_match_ids n k boxes :
  n0 <= n -> uniq (match_ids mapper n k boxes).
Proof.
elim: boxes n k => //= -[l c] boxes IH n k le_n.
have leS_n := leqW le_n.
case get_k: dict_get => [j|] /=; rewrite IH ?andbT //.
  apply/negP => /mem_match_ids[/andP[le_j _]|[k' lt_k' get_k']].
    by have := leq_trans (mapper_old get_k) (leq_trans le_n le_j); rewrite ltnn.
  by have := mapper_inj get_k get_k' => eq_k; rewrite eq_k ltnn in lt_k'.
apply/negP => /mem_match_ids[/andP[]|[k' _ /mapper_old lt_n]]; first by rewrite ltnn.
by have := leq_trans lt_n le_n; rewrite ltnn.
Qed.

(** The ids at or above the counter are the new ones, in increasing
    order. *)
Lemma new_match_ids n k boxes :
  n0 <= n ->
  [seq i <- match_ids mapper n k boxes | n <= i]
  = iota n (size (new_tracks kalman length t mapper n k boxes)).
Proof.
elim: boxes n k => //= -[l c] boxes IH n k le_n.
case get_k: dict_get => [j|] /=.
  by rewrite leqNgt (leq_trans (mapper_old get_k) le_n) /= IH.
rewrite leqnn -IH ?leqW //; congr (_ :: _); apply: eq_in_filter => i.
case/mem_match_ids=> [/andP[lt_i _]|[k' _ /mapper_old lt_i]].
  by rewrite lt_i ltnW.
have lt_in := leq_trans lt_i le_n.
by rewrite leqNgt lt_in /= ltnNge (ltnW lt_in).
Qed.

End Creation.

Lemma mapper_get final mapper k j :
  dict_get (foldl (fun m c => dict_set m c.1.1 c.1.2) mapper final) k
    = Some j ->
  dict_get mapper k = Some j
  \/ has (fun c => (c.1.1 == k) && (c.1.2 == j)) final.
Proof.
elim: final mapper => [|c final IH] mapper /=; first by left.
case/IH=> [|has_kj]; last by right; rewrite has_kj orbT.
rewrite dict_set_get; case: eqP => [_ [->]|_]; last by left.
by right; rewrite eqxx.
Qed.

Lemma has_track final k j :
  has (fun c => (c.1.1 == k) && (c.1.2 == j)) final ->
  j \in [seq c.1.2 | c <- final].
Proof.
apply: contraTT; rewrite notin_map -all_predC; apply: sub_all => c /=.
by rewrite negb_and => ->; rewrite orbT.
Qed.

Lemma mapper_inj final k1 k2 j :
  uniq [seq c.1.2 | c <- final] ->
  dict_get (mapper_of final) k1 = Some j ->
  dict_get (mapper_of final) k2 = Some j -> k1 = k2.
Proof.
move=> uniq_j /mapper_get[//|has1] /mapper_get[//|has2].
elim: final uniq_j has1 has2 => //= c final IH /andP[jN_final uniq_j].
case/orP=> [/andP[/eqP<- /eqP eq_j]|has1] /orP[/andP[/eqP<- /eqP eq_j']|has2] //.
- by rewrite eq_j (has_track has2) in jN_final.
- by rewrite eq_j' (has_track has1) in jN_final.
exact: IH.
Qed.

Lemma evict_loop (p : pred (nat * track)) self pre d done :
  uniq (keys (pre ++ d)) -> all (fun i => i \notin keys done) (keys d) ->
  for_ [seq it.1 | it <- d & p it] (@BoxTracker.evict_body real label)
       (BoxTracker.set_tracks self (pre ++ d), done)
  = (BoxTracker.set_tracks self (pre ++ [seq it <- d | ~~ p it]),
     done ++ [seq it <- d | p it], None).
Proof.
elim: d pre done => [|[i trk] d IHd] pre done; first by rewrite /= !cats0.
move=> uniq_d /= /andP[iN_done dN_done]; case: ifP => [p_it|pN_it] /=.
  rewrite /BoxTracker.pop /= dict_pop_mid // dict_set_new //.
  rewrite -/(BoxTracker.set_tracks self (pre ++ d)) IHd ?cat_rcons //.
    by move: uniq_d; rewrite !keys_cat !cat_uniq /= negb_or -!andbA;
      case/and5P=> -> _ -> _ ->.
  move: uniq_d; rewrite keys_cat cat_uniq /= => /and4P[_ _ iN_d _].
  apply/allP => j j_d; rewrite /keys map_rcons mem_rcons in_cons negb_or.
  by rewrite (allP dN_done) // andbT; apply: contraNneq iN_d => /= <-.
by rewrite -cat_rcons IHd // cat_rcons.
Qed.

End RegistryTheory.

Section UpdateTheory.
Variable real : realFieldType.
Variable label : eqType.
Notation track := (Track.obj real label 4).
Notation registry := (BoxTracker.obj real label).
Notation entry := (BoxTracker.entry real label).
Notation cand := (BoxTracker.cand real).
Implicit Types (self : registry) (t : real) (boxes : seq entry).
Implicit Types (c : cand) (errs final : seq cand) (mapper : dict nat).
Local Open Scope nat_scope.

Lemma matches_total self t boxes :
  let errs := candidates self t boxes in
  [/\ BoxTracker.unravel (size errs) errs [::] = (matches self t boxes, None),
      greedy errs (matches self t boxes)
    & all (candidate_of self boxes) (matches self t boxes)].
Proof.
move=> errs; have [_ all_errs] := pairs_total self t boxes.
have nums : costs_are_numbers errs.
  by apply: sub_all all_errs => c /and3P[/np_lt_number].
have [final eq_final run] := unravel_total nums.
have -> : matches self t boxes = final by rewrite /matches -/errs eq_final.
by split=> //; apply: greedy_all run all_errs.
Qed.

Lemma assignE self t boxes :
  BoxTracker.assign self t boxes =
  let: (self1, mapper, r) :=
    BoxTracker.commit self t boxes (matches self t boxes) in
  if r is Some e then (self1, Raise e) else
  let: (self2, _, match_, r2) := BoxTracker.create self1 t boxes mapper in
  if r2 is Some e then (self2, Raise e) else (self2, Return match_).
Proof.
have [eq_errs _] := pairs_total self t boxes.
have [eq_final _ _] := matches_total self t boxes.
rewrite /BoxTracker.assign -/(predictions self t) eq_errs eq_final.
by case: BoxTracker.commit => [[self1 mapper] [e|]].
Qed.

Lemma commit_matches self t boxes :
  let: (self1, mapper, r) :=
    BoxTracker.commit self t boxes (matches self t boxes) in
  [/\ same_config self self1 /\ same_ids self self1,
      r = None \/ r = Some LinAlgError,
      forall i, i \notin matched self t boxes ->
        dict_get (BoxTracker.tracks self1) i
        = dict_get (BoxTracker.tracks self) i
    & r = None ->
      mapper = mapper_of (matches self t boxes)
      /\ forall j, j \in matched self t boxes ->
           exists2 trk, dict_get (BoxTracker.tracks self1) j = Some trk
                      & Track.t trk = t].
Proof.
have [_ _ all_final] := matches_total self t boxes.
apply: commit_loop; apply: sub_all all_final => c /and3P[] //.
Qed.

Lemma create_total self t boxes mapper :
  let born := new_tracks (BoxTracker.kalman self) (BoxTracker.length self) t
                mapper (BoxTracker.nextid self) 0 boxes in
  let: (self', mapper', match_, r) := BoxTracker.create self t boxes mapper in
  [/\ r = None,
      match_ = match_ids mapper (BoxTracker.nextid self) 0 boxes,
      same_config self self',
      BoxTracker.nextid self' = BoxTracker.nextid self + size born
    & BoxTracker.tracks self' =
      foldl (fun d kv => dict_set d kv.1 kv.2) (BoxTracker.tracks self) born].
Proof. exact: (create_loop t boxes 0 self mapper [::]). Qed.

Lemma assign_raise self t boxes self' e :
  BoxTracker.assign self t boxes = (self', Raise e) ->
  [/\ e = LinAlgError, same_config self self', same_ids self self'
    & forall i, i \notin matched self t boxes ->
        dict_get (BoxTracker.tracks self') i
        = dict_get (BoxTracker.tracks self) i].
Proof.
rewrite assignE; have := commit_matches self t boxes.
case: BoxTracker.commit => [[self1 mapper] [ex|]].
  by case=> -[config1 ids1] [//|[->]] frame1 _ [<- <-].
move=> _; have := create_total self1 t boxes mapper.
by case: BoxTracker.create => [[[self2 mapper2] match_] r] [->].
Qed.

Lemma same_config_trans self1 self self2 :
  same_config self self1 -> same_config self1 self2 -> same_config self self2.
Proof.
by case=> e1 e2 e3 e4 [f1 f2 f3 f4]; split; rewrite ?f1 ?f2 ?f3 ?f4.
Qed.

Lemma mapper_old self t boxes k j :
  inv self ->
  dict_get (mapper_of (matches self t boxes)) k = Some j ->
  j \in matched self t boxes /\ j < BoxTracker.nextid self.
Proof.
case/andP=> _ /allP old /mapper_get[//|/has_track j_final]; split=> //.
have [_ _ all_final] := matches_total self t boxes; apply: old.
have: all (fun i => i \in keys (BoxTracker.tracks self)) (matched self t boxes).
  by rewrite /matched all_map; apply: sub_all all_final => c /and3P[].
by move/allP; apply.
Qed.

Lemma assign_return self t boxes mid match_ :
  inv self -> BoxTracker.assign self t boxes = (mid, Return match_) ->
  let mapper := mapper_of (matches self t boxes) in
  let born := new_tracks (BoxTracker.kalman self) (BoxTracker.length self) t
                mapper (BoxTracker.nextid self) 0 boxes in
  exists2 self1,
    [/\ BoxTracker.commit self t boxes (matches self t boxes)
          = (self1, mapper, None),
        same_ids self self1,
        forall i, i \notin matched self t boxes ->
          dict_get (BoxTracker.tracks self1) i
          = dict_get (BoxTracker.tracks self) i
      & forall j, j \in matched self t boxes ->
          seen_at (BoxTracker.tracks self1) t j]
  & [/\ match_ = match_ids mapper (BoxTracker.nextid self) 0 boxes,
        same_config self mid,
        BoxTracker.nextid mid = BoxTracker.nextid self + size born
      & BoxTracker.tracks mid = BoxTracker.tracks self1 ++ born].
Proof.
move=> inv_self; rewrite assignE; have := commit_matches self t boxes.
case: BoxTracker.commit => [[self1 mapper] [ex|]] //.
case=> -[config1 [nextid1 keys1]] _ frame1 [//|eq_mapper seen1].
have := create_total self1 t boxes mapper.
case: BoxTracker.create => [[[self2 mapper2] match2] r] [-> -> config2].
case: (config1) => _ _ -> ->; rewrite nextid1 -eq_mapper => nextid2 tracks2.
case=> <- <-; exists self1 => //; split=> //.
  exact: same_config_trans config1 config2.
rewrite tracks2 foldl_set_new ?keys_new_tracks ?iota_uniq //.
apply/allP => i; rewrite mem_iota keys1 => /andP[le_i _].
case/andP: inv_self => _ /allP old; apply/negP => /old.
by rewrite ltnNge le_i.
Qed.

Lemma inv_same_ids self self' : same_ids self self' -> inv self -> inv self'.
Proof. by rewrite /inv => -[-> ->]. Qed.

Lemma inv_assign self t boxes : inv self -> inv (BoxTracker.assign self t boxes).1.
Proof.
move=> inv_self; case E: BoxTracker.assign => [self' [match_|e]] /=.
  have [self1 [_ [nextid1 keys1] _ _] [_ _ nextid' tracks']] :=
    assign_return inv_self E.
  case/andP: inv_self => uniq_self /allP old.
  rewrite /inv tracks' keys_cat keys1 keys_new_tracks nextid'.
  rewrite cat_uniq uniq_self iota_uniq andbT all_cat /=; apply/and3P; split.
  - apply/hasPn => i; rewrite mem_iota => /andP[le_i _].
    by apply/negP => /old; rewrite ltnNge le_i.
  - by apply/allP => i /old lt_i; rewrite (leq_trans lt_i) // leq_addr.
  - by apply/allP => i; rewrite mem_iota => /andP[].
have [_ _ ids' _] := assign_raise E.
exact: inv_same_ids ids' inv_self.
Qed.

Lemma evictE self t :
  uniq (keys (BoxTracker.tracks self)) ->
  BoxTracker.evict self t =
  (BoxTracker.set_tracks self
     [seq it <- BoxTracker.tracks self | ~~ stale self t it],
   [seq it <- BoxTracker.tracks self | stale self t it], None).
Proof.
case: self => timeout cutoff length kalman nextid tracks /= uniq_self.
set self := BoxTracker.Obj _ _ _ _ _ _.
apply: (@evict_loop _ _ (stale self t) self [::] tracks [::]) => //.
exact/allP.
Qed.

Lemma keys_filter (V : Type) (p : pred (nat * V)) (d : dict V) :
  subseq (keys [seq it <- d | p it]) (keys d).
Proof.
elim: d => //= kv d IHd; case: ifP => _ /=; first by rewrite eqxx.
exact: subseq_trans IHd (subseq_cons _ _).
Qed.

Lemma inv_filter self (p : pred (nat * track)) :
  inv self ->
  inv (BoxTracker.set_tracks self [seq it <- BoxTracker.tracks self | p it]).
Proof.
case/andP=> uniq_self /allP old; rewrite /inv /=.
rewrite (subseq_uniq (keys_filter p _)) //=.
by apply/allP => i /(mem_subseq (keys_filter p _))/old.
Qed.

Lemma updateE self t boxes :
  inv self ->
  BoxTracker.update self t boxes =
  match BoxTracker.assign self t boxes with
  | (self', Raise e) => (self', Raise e)
  | (mid, Return match_) =>
    (BoxTracker.set_tracks mid
       [seq it <- BoxTracker.tracks mid | ~~ stale mid t it],
     Return (match_, [seq it <- BoxTracker.tracks mid | stale mid t it]))
  end.
Proof.
move/(inv_assign t boxes); rewrite /BoxTracker.update.
case: BoxTracker.assign => mid [match_|e] //= /andP[uniq_mid _].
by rewrite evictE.
Qed.

Lemma inv_update self t boxes :
  inv self -> inv (BoxTracker.update self t boxes).1.
Proof.
move=> inv_self; rewrite updateE //; have := inv_assign t boxes inv_self.
by case: BoxTracker.assign => mid [match_|e] //=; apply: inv_filter.
Qed.

Lemma inv_reset self : inv (BoxTracker.reset self).
Proof. by []. Qed.

Lemma inv_add self l t z : inv self -> inv (BoxTracker.add self l t z).1.
Proof.
case/andP=> uniq_self /allP old; rewrite /inv /= keys_dict_set.
have newN : BoxTracker.nextid self \notin keys (BoxTracker.tracks self).
  by apply/negP => /old; rewrite ltnn.
rewrite (negPf newN) rcons_uniq newN uniq_self all_rcons ltnSn /=.
by apply/allP => i /old/ltnW.
Qed.

Lemma inv_pop self i : inv self -> inv (BoxTracker.pop self i).1.
Proof.
rewrite /BoxTracker.pop /dict_pop; case: dict_get => [trk|] //=.
exact: (@inv_filter self (fun it => it.1 != i)).
Qed.

End UpdateTheory.

Section FrameTheory.
Variable real : realFieldType.
Variable label : eqType.
Notation track := (Track.obj real label 4).
Notation registry := (BoxTracker.obj real label).
Notation entry := (BoxTracker.entry real label).
Notation cand := (BoxTracker.cand real).
Implicit Types (self mid : registry) (t : real) (boxes : seq entry).
Implicit Types (c : cand) (errs final : seq cand) (mapper : dict nat).
Local Open Scope nat_scope.

Lemma dict_get_all (V : Type) (p : pred V) (d : dict V) i v :
  all (fun it => p it.2) d -> dict_get d i = Some v -> p v.
Proof.
elim: d => //= kv d IHd /andP[p_kv /IHd{}IHd].
by case: eqP => // _ [<-].
Qed.

Lemma uniq_matched self t boxes : uniq (matched self t boxes).
Proof.
have [_ /greedy_uniq/andP[_ uniq_j] _] := matches_total self t boxes.
exact: uniq_j.
Qed.

Lemma match_uniq self t boxes mid match_ :
  inv self -> BoxTracker.assign self t boxes = (mid, Return match_) ->
  uniq match_.
Proof.
move=> inv_self /(assign_return inv_self)[self1 _ [-> _ _ _]].
apply: (@uniq_match_ids _ _ (BoxTracker.kalman self) (BoxTracker.length self)
          t _ (BoxTracker.nextid self)) => // [k j /(mapper_old inv_self)[]|] //.
move=> k1 k2 j; apply: mapper_inj; exact: uniq_matched.
Qed.

Lemma match_cases self t boxes mid match_ i :
  inv self -> BoxTracker.assign self t boxes = (mid, Return match_) ->
  i \in match_ ->
  (i \in matched self t boxes) && (i \in keys (BoxTracker.tracks self))
  || (BoxTracker.nextid self <= i < BoxTracker.nextid mid).
Proof.
move=> inv_self /(assign_return inv_self)[self1 _ [-> _ -> _]].
case/(@mem_match_ids _ _ (BoxTracker.kalman self) (BoxTracker.length self) t).
  by move->; rewrite orbT.
case=> k _ /(mapper_old inv_self)[i_final lt_i].
rewrite i_final /=; have [_ _ all_final] := matches_total self t boxes.
have: all (fun i => i \in keys (BoxTracker.tracks self)) (matched self t boxes).
  by rewrite /matched all_map; apply: sub_all all_final => c /and3P[].
by move/allP->.
Qed.

Lemma match_seen self t boxes mid match_ i :
  inv self -> BoxTracker.assign self t boxes = (mid, Return match_) ->
  i \in match_ -> seen_at (BoxTracker.tracks mid) t i.
Proof.
move=> inv_self E i_match; have := match_cases inv_self E i_match.
have [self1 [_ [_ keys1] _ seen1] [_ _ nextid' tracks']] :=
  assign_return inv_self E.
rewrite /seen_at tracks' dict_get_cat keys1.
case/orP=> [/andP[/seen1 seen_i ->] //|]; rewrite nextid' => range_i.
have -> : (i \in keys (BoxTracker.tracks self)) = false.
  case/andP: inv_self => _ /allP old; apply/negP => /old.
  by case/andP: range_i => le_i _; rewrite ltnNge le_i.
have: i \in keys (new_tracks (BoxTracker.kalman self) (BoxTracker.length self)
    t (mapper_of (matches self t boxes)) (BoxTracker.nextid self) 0 boxes).
  by rewrite keys_new_tracks mem_iota.
rewrite -dict_get_mem; case get_i: dict_get => [trk|] // _; exists trk => //.
apply/eqP; apply: (@dict_get_all _ (fun trk : track => Track.t trk == t)) get_i.
exact: t_new_tracks.
Qed.

(** The ids of [match] that named no track before the call are the values
    the counter took during the call, in order. *)
Lemma match_created self t boxes mid match_ :
  inv self -> BoxTracker.assign self t boxes = (mid, Return match_) ->
  BoxTracker.nextid self <= BoxTracker.nextid mid
  /\ [seq i <- match_ | i \notin keys (BoxTracker.tracks self)]
     = iota (BoxTracker.nextid self)
            (BoxTracker.nextid mid - BoxTracker.nextid self).
Proof.
move=> inv_self E; have cases i := @match_cases _ _ _ _ _ i inv_self E.
have [self1 _ [eq_match _ nextid' _]] := assign_return inv_self E.
rewrite nextid' leq_addr addKn; split=> //.
have below k j : dict_get (mapper_of (matches self t boxes)) k = Some j ->
    j < BoxTracker.nextid self by case/(mapper_old inv_self).
rewrite -(new_match_ids _ _ _ below) // -eq_match.
apply: eq_in_filter => i /cases.
case/andP: inv_self => _ /allP old.
case/orP=> [/andP[_ i_old]|/andP[le_i _]].
  by rewrite i_old leqNgt old.
by rewrite le_i; apply/negP => /old; rewrite ltnNge le_i.
Qed.

End FrameTheory.

Section RegistryClaims.
Variable real : realFieldType.
Variable label : eqType.
Notation track := (Track.obj real label 4).
Notation registry := (BoxTracker.obj real label).
Notation entry := (BoxTracker.entry real label).
Notation cand := (BoxTracker.cand real).
Implicit Types (self mid : registry) (t : real) (boxes : seq entry).
Local Open Scope nat_scope.

Lemma step_issued self c :
  inv self ->
  let: (self', ids) := step self c in
  [/\ inv self', BoxTracker.nextid self <= BoxTracker.nextid self'
    & ids = iota (BoxTracker.nextid self)
                 (BoxTracker.nextid self' - BoxTracker.nextid self)].
Proof.
move=> inv_self; case: c => [l t z|i|t boxes] /=.
- by split; rewrite ?subSnn //; apply: (inv_add l t z).
- split; rewrite ?(inv_pop i) //; rewrite /BoxTracker.pop;
    by case: dict_pop => [[trk d]|] /=; rewrite ?subnn.
have := inv_update t boxes inv_self; rewrite updateE //.
case E: BoxTracker.assign => [mid [match_|e]] /= inv'.
  by have [le_mid created] := match_created inv_self E.
by have [_ _ [-> _] _] := assign_raise E; rewrite subnn.
Qed.

Lemma run_issued self cs :
  inv self ->
  let: (self', ids) := run self cs in
  [/\ inv self', BoxTracker.nextid self <= BoxTracker.nextid self'
    & ids = iota (BoxTracker.nextid self)
                 (BoxTracker.nextid self' - BoxTracker.nextid self)].
Proof.
elim: cs self => [|c cs IHcs] self inv_self /=; first by rewrite subnn.
have := step_issued c inv_self; case: (step self c) => self1 ids1.
case=> /IHcs; case: (run self1 cs) => self2 ids2 [inv2 le2 ->] le1 ->.
split=> //; first exact: leq_trans le1 le2.
rewrite -[in X in _ ++ iota X _](subnKC le1) -iotaD.
by rewrite addnC addnBA // subnK.
Qed.

(** C5.  After any sequence of [add], [pop] and [update] calls on a
    registry that was reset, the ids given to new tracks are 0, 1, 2, ...
    up to the counter, in the order they were given (strictly increasing,
    none given twice); every id of a live track is below the counter;
    [add] returns the counter and increments it; and no call decreases
    the counter. *)
Theorem identifiers_increase self0 cs :
  let: (self, issued) := run (BoxTracker.reset self0) cs in
  [/\ issued = iota 0 (BoxTracker.nextid self),
      sorted ltn issued,
      all (fun i => i < BoxTracker.nextid self) (keys (BoxTracker.tracks self)),
      forall l t z,
        let: (self', i) := BoxTracker.add self l t z in
        i = BoxTracker.nextid self
        /\ BoxTracker.nextid self' = (BoxTracker.nextid self).+1
    & forall c, BoxTracker.nextid self <= BoxTracker.nextid (step self c).1].
Proof.
have := run_issued cs (inv_reset self0).
case: (run _ cs) => self issued [inv_self _]; rewrite subn0 /= => ->.
split=> //; first exact: iota_ltn_sorted.
  by case/andP: inv_self.
by move=> c; have := step_issued c inv_self; case: (step self c) => ? ? [].
Qed.

(** C9.  An [update] that returns gives one id per detection, no id
    twice; no track is committed for two detections and no detection for
    two tracks; and each id is either the track of a committed match,
    live before the call, or a value the counter took during the call. *)
Theorem update_ids_distinct self t boxes self' match_ done :
  inv self ->
  BoxTracker.update self t boxes = (self', Return (match_, done)) ->
  [/\ size match_ = size boxes,
      uniq match_,
      uniq (matched self t boxes),
      uniq [seq c.1.1 | c <- matches self t boxes]
    & forall i, i \in match_ ->
        (i \in matched self t boxes) && (i \in keys (BoxTracker.tracks self))
        || (BoxTracker.nextid self <= i < BoxTracker.nextid self')].
Proof.
move=> inv_self; rewrite updateE //.
case E: BoxTracker.assign => [mid [m|e]] // [<- <- _].
have [_ /greedy_uniq/andP[uniq_k _] _] := matches_total self t boxes.
split=> //; first last.
- by move=> i; apply: match_cases E.
- exact: uniq_matched.
- exact: match_uniq E.
by have [self1 _ [-> _ _ _]] := assign_return inv_self E; rewrite size_match_ids.
Qed.

Lemma dict_filter_keep (V : Type) (p : pred (nat * V)) (d : dict V) i v :
  dict_get d i = Some v -> p (i, v) ->
  dict_get [seq it <- d | p it] i = Some v.
Proof.
elim: d => //= -[j w] d IHd /=; case: eqP => [-> [->] ->|ne_j get_i p_i] /=.
  by rewrite eqxx.
by case: ifP => _ /=; rewrite ?IHd //; case: eqP.
Qed.

Lemma dict_filter_drop (V : Type) (p : pred (nat * V)) (d : dict V) i v :
  uniq (keys d) -> dict_get d i = Some v -> ~~ p (i, v) ->
  i \notin keys [seq it <- d | p it].
Proof.
elim: d => //= -[j w] d IHd /= /andP[+ uniq_d].
case: eqP => [-> jN_d [->] /negPf->|/eqP ne_j _ get_i pN_i].
  by apply: contra jN_d; apply: (mem_subseq (keys_filter p d)).
by case: ifP => _ /=; rewrite ?in_cons ?negb_or 1?eq_sym ?ne_j IHd.
Qed.

(** C4.  Let [mid] be the registry at the end of the matching and
    creation phase.  The call returns, as evicted, exactly the tracks of
    [mid] with [t > trk.t + timeout], and leaves exactly the others in
    the registry.  With [timeout >= 0], every id of [match] names a track
    of [mid] whose timestamp is [t]; that track stays in the registry and
    is not evicted. *)
Theorem eviction_after_matching self t boxes mid match_ :
  inv self ->
  BoxTracker.assign self t boxes = (mid, Return match_) ->
  let done := [seq it <- BoxTracker.tracks mid | stale mid t it] in
  let self' :=
    BoxTracker.set_tracks mid
      [seq it <- BoxTracker.tracks mid | ~~ stale mid t it] in
  BoxTracker.update self t boxes = (self', Return (match_, done))
  /\ ((0 <= BoxTracker.timeout self)%R ->
      forall i, i \in match_ ->
        exists trk,
          [/\ dict_get (BoxTracker.tracks mid) i = Some trk, Track.t trk = t,
              dict_get (BoxTracker.tracks self') i = Some trk
            & i \notin keys done]).
Proof.
move=> inv_self E done self'; split; first by rewrite updateE // E.
move=> timeout_ge0 i /(match_seen inv_self E)[trk get_i t_trk].
have [_ _ [_ [eq_timeout _ _ _] _ _]] := assign_return inv_self E.
have fresh : stale mid t (i, trk) = false.
  by rewrite /stale /= t_trk eq_timeout ltNge lerDl timeout_ge0.
have := inv_assign t boxes inv_self; rewrite E => /andP[uniq_mid _].
exists trk; split=> //; first by rewrite /= (dict_filter_keep get_i) ?fresh.
by rewrite (dict_filter_drop uniq_mid get_i) ?fresh.
Qed.






End RegistryClaims.

Section Examples.
Variable real : realFieldType.
Variable label : eqType.
Notation track := (Track.obj real label 4).
Notation registry := (BoxTracker.obj real label).
Notation entry := (BoxTracker.entry real label).
Local Arguments box_overlap : simpl never.
Local Notation noiseless := (noiseless real).
Local Notation unit_box := (unit_box real).

Lemma np_square0 n : np_square (0 : 'rV[real]_n) = 0.
Proof. by apply/matrixP => i j; rewrite !mxE expr0n. Qed.

Lemma noiselessE ndim :
  noiseless ndim = KalmanTracker.Obj 1%:M 0 (row_mx 1%:M 0) 0 0.
Proof.
rewrite /noiseless /KalmanTracker.init np_square0.
have -> : diag_mx (0 : 'rV[real]_ndim) = 0 by apply/matrixP => i j; rewrite !mxE mul0rn.
by rewrite -[block_mx 0 0 0 0]/(block_mx 0 0 0 0) block_mx0.
Qed.

(** Its innovation covariance is singular when the covariance is 0. *)
Lemma update_noiseless ndim x z dt :
  KalmanTracker.update (noiseless ndim.+1) x 0 z dt = Raise LinAlgError.
Proof.
rewrite noiselessE /KalmanTracker.update /= /np_solve.
by rewrite !(mulmx0, mul0mx) addr0 unitmxE det0 unitr0.
Qed.

Lemma update_noiseless_start ndim x z dt :
  KalmanTracker.update (noiseless ndim.+1) x
    (KalmanTracker.P0 (noiseless ndim.+1)) z dt = Raise LinAlgError.
Proof. by rewrite {2}noiselessE /= update_noiseless. Qed.

Lemma predict_at_rest ndim (sz sv : 'rV[real]_ndim) z P dt :
  (KalmanTracker.predict (KalmanTracker.init sz sv) (col_mx z 0) P dt).1
  = col_mx z 0.
Proof.
by rewrite /= mul_block_col !mul1mx !mulmx0 mul0mx !addr0.
Qed.

Lemma box_overlap_same (b : box real) :
  (let: (l, t, r, b) := b in 0 < box_area l t r b) ->
  box_overlap b b = Fin 0.
Proof.
case: b => [[[l t] r] b] area_gt0.
by rewrite /box_overlap !maxxx !minxx /np_div gt_eqF //= divff ?subrr // gt_eqF.
Qed.

Lemma edges_unit_box : edges unit_box = (0, 0, 1, 1).
Proof. by rewrite /edges !mxE !inordK. Qed.

Lemma area_unit_box : box_area (0 : real) 0 1 1 = 1.
Proof. by rewrite /box_area subr0 (max_idPr _) ?ler01 // mulr1. Qed.

Lemma update_noiseless_registry timeout cutoff length (l : label) :
  0 < cutoff ->
  let self := noiseless_registry timeout cutoff length l in
  let trk := Track.init (noiseless 4) length l 0 unit_box in
  inv self
  /\ BoxTracker.update self 1 [:: (l, unit_box)]
     = (BoxTracker.set_tracks self [:: (0%N, touched trk 1)],
        Raise LinAlgError).
Proof.
move=> cutoff_gt0 self trk; split=> //.
rewrite /BoxTracker.update /BoxTracker.assign /BoxTracker.pairs /=.
rewrite eqxx mul_block_col !mul1mx !mulmx0 mul0mx !addr0 col_mxKu.
rewrite edges_unit_box box_overlap_same ?area_unit_box //= cutoff_gt0 /=.
rewrite /BoxTracker.commit /= /Track.update /=.
by rewrite (@update_noiseless_start 3 (col_mx unit_box 0) unit_box (1 - 0)).
Qed.


(** The first frame of a new registry: every detection gets a new track. *)
Lemma update_first_frame (timeout cutoff : real) length (l1 l2 : label)
    z1 z2 t :
  0 <= timeout ->
  let self := BoxTracker.init label timeout cutoff length in
  let kalman := BoxTracker.kalman self in
  let born := [:: (0%N, Track.init kalman length l1 t z1);
                  (1%N, Track.init kalman length l2 t z2)] in
  inv self
  /\ BoxTracker.assign self t [:: (l1, z1); (l2, z2)]
     = (BoxTracker.Obj timeout cutoff length kalman 2 born,
        Return [:: 0%N; 1%N])
  /\ BoxTracker.update self t [:: (l1, z1); (l2, z2)]
     = (BoxTracker.Obj timeout cutoff length kalman 2 born,
        Return ([:: 0%N; 1%N], [::])).
Proof.
move=> timeout_ge0 self kalman born; split=> //.
have fresh : (t + timeout < t) = false by rewrite ltNge lerDl timeout_ge0.
by rewrite /BoxTracker.update /BoxTracker.evict /= !fresh.
Qed.

End Examples.

(** * Further properties of the code *)

Section EveryTheory.
Variable V : Type.
Implicit Types (P : V -> Prop) (d : dict V).

Lemma every_get P d i v : every P d -> dict_get d i = Some v -> P v.
Proof.
by elim: d => //= kv d IHd [P_kv /IHd{}IHd]; case: eqP => // _ [<-].
Qed.

Lemma every_set P d i v : every P d -> P v -> every P (dict_set d i v).
Proof.
elim: d => [|kv d IHd] //= [P_kv P_d] P_v.
by case: eqP => _ /=; split=> //; apply: IHd.
Qed.

Lemma every_filter P (p : pred (nat * V)) d :
  every P d -> every P [seq it <- d | p it].
Proof.
by elim: d => //= kv d IHd [P_kv /IHd{}IHd]; case: ifP => _ /=.
Qed.

Lemma every_foldl_set P d born :
  every P d -> every P born ->
  every P (foldl (fun d kv => dict_set d kv.1 kv.2) d born).
Proof.
elim: born d => //= kv born IHborn d P_d [P_kv P_born].
by apply: IHborn => //; apply: every_set.
Qed.

End EveryTheory.

Section SoundTheory.
Variable real : realFieldType.
Variable label : eqType.
Notation track := (Track.obj real label 4).
Notation registry := (BoxTracker.obj real label).
Notation entry := (BoxTracker.entry real label).
Implicit Types (self : registry) (t : real) (boxes : seq entry).

Lemma sound_init ndim (sigma_z sigma_v : 'rV[real]_ndim) length (l : label)
    t z :
  sound_track (KalmanTracker.init sigma_z sigma_v)
    (Track.init (KalmanTracker.init sigma_z sigma_v) length l t z).
Proof.
have [symP0 psdP0] :
    symmetric (KalmanTracker.P0 (KalmanTracker.init sigma_z sigma_v))
    /\ psd (KalmanTracker.P0 (KalmanTracker.init sigma_z sigma_v)).
  by rewrite P0E; split; [exact: symmetric_diag | exact: psd_diag_square].
by split.
Qed.

(** [Track.update] of a sound track of a noisy filter returns, and the
    track is sound again. *)
Lemma sound_update ndim (kalman : KalmanTracker.obj real ndim)
    (trk : Track.obj real label ndim) t z :
  noisy kalman -> sound_track kalman trk ->
  exists2 trk', Track.update trk t z = (trk', None) & sound_track kalman trk'.
Proof.
case=> sigma_z [sigma_v [nonzero ->]] [eq_kalman symP psdP].
rewrite /Track.update eq_kalman.
have [x2 [P2 eq_update]] :=
  update_succeeds sigma_v (Track.x trk) z (t - Track.t trk) nonzero psdP.
have [symP2 psdP2] : symmetric P2 /\ psd P2.
  move: eq_update; rewrite /KalmanTracker.update predictE /np_solve.
  set P1 := transition _ _ *m _ *m _.
  have symP1 : symmetric P1 by exact: symmetric_congr.
  have psdP1 : psd P1 by exact: psd_congr.
  have symR := symmetric_diag (np_square sigma_z).
  have psdR := psd_diag_square sigma_z.
  case: ifP => // unitA [_ <-]; split.
    exact: symmetric_update.
  exact: psd_update.
by rewrite eq_update; eexists; [|split].
Qed.

Lemma sound_commit t boxes final self mapper :
  sound self ->
  all (fun c => c.1.2 \in keys (BoxTracker.tracks self)) final ->
  all (fun c => c.1.1 < size boxes)%N final ->
  let: (self', mapper', r) :=
    for_ final (BoxTracker.commit_body t boxes) (self, mapper) in
  r = None /\ sound self'.
Proof.
elim: final self mapper => [|c final IHfinal] self mapper //=.
case=> noisy_self sound_self /andP[j_in js_in] /andP[k_lt ks_lt].
have [b [trk [get_k get_j ->]]] := commit_bodyE t mapper j_in k_lt.
have [trk' -> sound'] :=
  sound_update t b.2 noisy_self (every_get sound_self get_j).
apply: IHfinal => //=; last by rewrite keys_dict_set j_in.
by split=> //=; apply: every_set.
Qed.

Lemma sound_new_tracks self t mapper n k boxes :
  noisy (BoxTracker.kalman self) ->
  every (sound_track (BoxTracker.kalman self))
        (new_tracks (BoxTracker.kalman self) (BoxTracker.length self) t
                    mapper n k boxes).
Proof.
case=> sigma_z [sigma_v [_ ->]].
elim: boxes n k => //= -[l c] boxes IHboxes n k.
by case: dict_get => [j|] //=; split=> //; apply: sound_init.
Qed.

(** With a noisy filter and sound tracks, matching and creation return. *)
Lemma sound_assign_returns self t boxes :
  inv self -> sound self ->
  exists mid match_,
    BoxTracker.assign self t boxes = (mid, Return match_) /\ sound mid.
Proof.
move=> inv_self sound_self; rewrite assignE.
have [_ _ all_final] := matches_total self t boxes.
have := @sound_commit t boxes (matches self t boxes) self [::] sound_self.
rewrite -/(BoxTracker.commit self t boxes (matches self t boxes)).
have := commit_matches self t boxes.
case: BoxTracker.commit => [[self1 mapper] r] [[config1 _] _ _ _] [||-> sound1].
- by apply: sub_all all_final => c /and3P[].
- by apply: sub_all all_final => c /and3P[].
have := create_total self1 t boxes mapper.
case: BoxTracker.create => [[[self2 mapper2] match_] r2] [-> _ config2 _ tracks2].
exists self2, match_; split=> //.
case: sound1 config2 => noisy1 every1 [_ _ _ eq_kalman].
split; rewrite eq_kalman // tracks2; apply: every_foldl_set => //.
exact: sound_new_tracks.
Qed.

Lemma sound_update_returns self t boxes :
  inv self -> sound self ->
  exists self' match_ done,
    BoxTracker.update self t boxes = (self', Return (match_, done))
    /\ sound self'.
Proof.
move=> inv_self sound_self; rewrite updateE //.
have [mid [match_ [-> [noisy_mid every_mid]]]] :=
  sound_assign_returns t boxes inv_self sound_self.
do 3!eexists; split; first by [].
by split=> //=; apply: every_filter.
Qed.

Lemma sound_default (timeout cutoff : real) length :
  sound (BoxTracker.init label timeout cutoff length).
Proof.
split=> //; exists (kalman_args real).1, (kalman_args real).2; split=> // i.
by rewrite mxE mulf_neq0 ?invr_neq0 ?pnatr_eq0.
Qed.

Lemma sound_step self (c : call real label) :
  inv self -> sound self -> sound (step self c).1.
Proof.
move=> inv_self sound_self; case: c => [l t z|i|t boxes] /=.
- case: sound_self => noisy_self every_self; split=> //=.
  apply: every_set => //; case: noisy_self => sigma_z [sigma_v [_ ->]].
  exact: sound_init.
- rewrite /BoxTracker.pop /dict_pop; case: dict_get => [trk|] //=.
  by case: sound_self => noisy_self every_self; split=> //=; apply: every_filter.
have [self' [match_ [done [-> sound']]]] :=
  sound_update_returns t boxes inv_self sound_self.
exact: sound'.
Qed.

Lemma sound_run self (cs : seq (call real label)) :
  inv self -> sound self -> inv (run self cs).1 /\ sound (run self cs).1.
Proof.
elim: cs self => [|c cs IHcs] self inv_self sound_self //=.
have := step_issued c inv_self; have := sound_step c inv_self sound_self.
case: (step self c) => self1 ids1 /= sound1 [inv1 _ _].
by have := IHcs self1 inv1 sound1; case: (run self1 cs).
Qed.

(** X1.  Over exact arithmetic, [update] of a registry made by [__init__]
    (with the filter of [kalman_args]) returns, whatever [add], [pop] and
    [update] calls were made before: the innovation covariance of every
    track stays invertible. *)
Theorem default_update_returns (timeout cutoff : real) length
    (cs : seq (call real label)) t boxes :
  let self := (run (BoxTracker.init label timeout cutoff length) cs).1 in
  exists self' match_ done,
    BoxTracker.update self t boxes = (self', Return (match_, done)).
Proof.
move=> self.
have [inv_self sound_self] :=
  sound_run cs (inv_reset _) (sound_default timeout cutoff length).
have [self' [match_ [done [eq_update _]]]] :=
  sound_update_returns t boxes inv_self sound_self.
by exists self', match_, done.
Qed.

End SoundTheory.

Section FilterExtras.
Variable real : realFieldType.
Variable ndim : nat.
Implicit Types (sigma_z sigma_v : 'rV[real]_ndim).
Implicit Types (x : 'cV[real]_(ndim + ndim)) (P : 'M[real]_(ndim + ndim)).
Implicit Types (z : 'cV[real]_ndim) (dt : real).

Lemma observe_position x : row_mx 1%:M 0 *m x = usubmx x.
Proof.
by rewrite -[in LHS](vsubmxK x) mul_row_col mul1mx mul0mx addr0.
Qed.

(** X2.  The constant-velocity model: [predict] moves the position by [dt]
    times the velocity and keeps the velocity. *)
Theorem predict_constant_velocity sigma_z sigma_v x P dt :
  let x1 := (KalmanTracker.predict (KalmanTracker.init sigma_z sigma_v)
                                   x P dt).1 in
  usubmx x1 = usubmx x + dt *: dsubmx x /\ dsubmx x1 = dsubmx x.
Proof.
rewrite /= -[in X in _ *m X](vsubmxK x) mul_block_col col_mxKu col_mxKd.
by rewrite !mul1mx mul0mx add0r -scalemxAl mul1mx.
Qed.

(** X3.  With no measurement noise, an [update] whose solve succeeds puts
    the position on the measurement. *)
Theorem update_trusts_measurement sigma_v x P z dt x2 P2 :
  symmetric P ->
  KalmanTracker.update (KalmanTracker.init 0 sigma_v) x P z dt
    = Return (x2, P2) ->
  usubmx x2 = z.
Proof.
move=> symP; rewrite /KalmanTracker.update predictE /np_solve /=.
have diag0 : diag_mx (0 : 'rV[real]_ndim) = 0.
  by apply/matrixP => i j; rewrite !mxE mul0rn.
rewrite np_square0 diag0 addr0.
set H := row_mx 1%:M 0; set P1 := _ *m P *m _; set A := H *m P1 *m H^T.
case: ifP => // unitA [<- _]; rewrite -observe_position -/H.
have symP1 : symmetric P1 by exact: symmetric_congr.
have symA : symmetric A by exact: symmetric_congr.
set K := (invmx A *m _)^T.
have HK : H *m K = 1%:M.
  rewrite /K trmx_mul trmxK trmx_inv symA mulmxA [H *m (P1 *m _)]mulmxA -/A.
  exact: mulmxV.
rewrite mulmxDr mulmxBl mul1mx mulmxBr [H *m (K *m H *m _)]mulmxA.
by rewrite [H *m (K *m H)]mulmxA [H *m (K *m z)]mulmxA HK !mul1mx subrr add0r.
Qed.

End FilterExtras.

Section BoxExtras.
Variable real : realFieldType.

(** X6.  The cost does not depend on the order of the two boxes. *)
Theorem box_overlap_sym (box1 box2 : box real) :
  box_overlap box1 box2 = box_overlap box2 box1.
Proof.
case: box1 box2 => [[[l1 t1] r1] b1] [[[l2 t2] r2] b2].
rewrite /box_overlap [Num.max l2 l1]maxC [Num.max t2 t1]maxC.
by rewrite [Num.min r2 r1]minC [Num.min b2 b1]minC [Num.max (box_area l2 _ _ _) _]maxC.
Qed.

End BoxExtras.

Section RegistryExtras.
Variable real : realFieldType.
Variable label : eqType.
Notation track := (Track.obj real label 4).
Notation registry := (BoxTracker.obj real label).
Notation entry := (BoxTracker.entry real label).
Notation cand := (BoxTracker.cand real).
Implicit Types (self mid : registry) (t : real) (boxes : seq entry).
Implicit Types (l : label) (z : 'cV[real]_4).
Local Open Scope nat_scope.

(** X12.  [pop] of an id that is not in the registry raises [KeyError] and
    changes nothing; [pop] of an id that is returns its track, removes that
    id and leaves the other tracks and the counter as they are. *)
Theorem pop_missing_or_removed self i :
  let: (self', r) := BoxTracker.pop self i in
  if dict_get (BoxTracker.tracks self) i is Some trk then
    [/\ r = Return trk, i \notin keys (BoxTracker.tracks self'),
        BoxTracker.nextid self' = BoxTracker.nextid self
      & forall j, j != i ->
          dict_get (BoxTracker.tracks self') j
          = dict_get (BoxTracker.tracks self) j]
  else self' = self /\ r = Raise KeyError.
Proof.
rewrite /BoxTracker.pop /dict_pop; case: dict_get => [trk|] //=.
have get_filter := @dict_get_filter _ (fun k => k != i).
split=> // [|j ne_j]; last by rewrite get_filter ne_j.
by rewrite -dict_get_mem get_filter eqxx.
Qed.

(** X13.  [add] then lookup and [pop]: the new track is found under the id
    [add] returned, the other tracks are as before, and popping that id
    gives the track back and restores the tracks of the registry. *)
Theorem add_then_pop self l t z :
  inv self ->
  let: (self1, i) := BoxTracker.add self l t z in
  let trk := Track.init (BoxTracker.kalman self) (BoxTracker.length self)
                        l t z in
  [/\ dict_get (BoxTracker.tracks self1) i = Some trk,
      forall j, j != i ->
        dict_get (BoxTracker.tracks self1) j
        = dict_get (BoxTracker.tracks self) j
    & BoxTracker.pop self1 i
      = (BoxTracker.set_tracks self1 (BoxTracker.tracks self), Return trk)].
Proof.
case/andP=> uniq_self /allP old /=.
have newN : BoxTracker.nextid self \notin keys (BoxTracker.tracks self).
  by apply/negP => /old; rewrite ltnn.
split=> [|j ne_j|]; rewrite ?dict_set_get ?eqxx //.
  by rewrite eq_sym (negPf ne_j).
rewrite /BoxTracker.pop /= dict_set_new // -cats1.
rewrite (@dict_pop_mid _ _ _ _ [::]) ?cats0 //.
by rewrite keys_cat /= cats1 rcons_uniq newN.
Qed.

(** X14.  An [update] with no detection never raises: it returns no id,
    evicts the stale tracks and leaves the others and the counter as they
    are. *)
Theorem update_no_detection self t :
  inv self ->
  BoxTracker.update self t [::]
  = (BoxTracker.set_tracks self
       [seq it <- BoxTracker.tracks self | ~~ stale self t it],
     Return ([::], [seq it <- BoxTracker.tracks self | stale self t it])).
Proof.
by move=> inv_self; rewrite updateE.
Qed.

End RegistryExtras.

Section EachTheory.
Variables (A S : Type).
Implicit Types (P Q : A -> Prop) (xs : seq A).

Lemma each_cat P xs ys : each P (xs ++ ys) <-> each P xs /\ each P ys.
Proof.
elim: xs => [|x xs [IH1 IH2]] /=; first by split=> [|[]].
split=> [[Px /IH1[Pxs Pys]]|[[Px Pxs] Pys]] //.
by split=> //; apply: IH2.
Qed.

Lemma each_rcons P xs x : each P xs -> P x -> each P (rcons xs x).
Proof. by move=> Pxs Px; rewrite -cats1; apply/each_cat. Qed.

Lemma each_filter P (p : pred A) xs : each P xs -> each P [seq x <- xs | p x].
Proof. by elim: xs => //= x xs IHxs [Px /IHxs]; case: ifP. Qed.

Lemma each_impl P Q xs : (forall x, P x -> Q x) -> each P xs -> each Q xs.
Proof. by move=> PQ; elim: xs => //= x xs IHxs [/PQ Qx /IHxs]. Qed.

(** An invariant of a loop whose items satisfy [Q]. *)
Lemma for_each Q (I : S -> Prop) xs (body : A -> S -> S * option exn) s :
  each Q xs -> I s ->
  (forall x s, Q x -> I s -> I (body x s).1) ->
  I (for_ xs body s).1.
Proof.
move=> + + stepI; elim: xs s => [|x xs IHxs] s //= [Qx Qxs] Is.
have := stepI x s Qx Is; case: (body x s) => s' [e|] //= Is'.
exact: IHxs.
Qed.

End EachTheory.

Section PairingTheory.
Variable real : realFieldType.
Variable label : eqType.
Notation track := (Track.obj real label 4).
Notation registry := (BoxTracker.obj real label).
Notation entry := (BoxTracker.entry real label).
Notation cand := (BoxTracker.cand real).
Implicit Types (self mid : registry) (t : real) (boxes : seq entry).
Implicit Types (c m : cand) (errs final : seq cand).
Local Open Scope nat_scope.
Local Arguments box_overlap : simpl never.

Lemma each_enumerate (B : Type) (ys : seq B) :
  each (fun p => seq_get ys p.1 = Some p.2) (enumerate ys).
Proof.
rewrite /enumerate -[ys in seq_get ys]/([::] ++ ys) -[0]/(size ([::] : seq B)).
elim: ys [::] => //= y ys IHys pre; split.
  by rewrite /seq_get drop_size_cat.
by rewrite -cat_rcons -(size_rcons pre y); apply: IHys.
Qed.

Lemma each_items (V : Type) (d : dict V) :
  uniq (keys d) -> each (fun it => dict_get d it.1 = Some it.2) d.
Proof.
rewrite -[d in keys d]/([::] ++ d) -[d in dict_get d]/([::] ++ d).
elim: d [::] => //= -[i v] d IHd pre uniq_d; split.
  move: uniq_d; rewrite keys_cat cat_uniq /= negb_or => /and3P[_ /andP[iN _] _].
  by rewrite dict_get_cat (negPf iN) /= eqxx.
by rewrite -cat_rcons; apply: IHd; rewrite cat_rcons.
Qed.

Lemma dict_get_predictions self t i :
  dict_get (predictions self t) i
  = omap (fun trk => Track.predict trk t)
         (dict_get (BoxTracker.tracks self) i).
Proof.
by rewrite /predictions; elim: (BoxTracker.tracks self) => //= it d ->;
  case: eqP.
Qed.

Lemma candidates_pairing self t boxes :
  uniq (keys (BoxTracker.tracks self)) ->
  each (pairing self t boxes) (candidates self t boxes).
Proof.
move=> uniq_self; rewrite /candidates /BoxTracker.pairs.
apply: (@for_each _ _ (fun p => seq_get boxes p.1 = Some p.2)
          (each (pairing self t boxes))) => //; first exact: each_enumerate.
case=> k1 [l1 c1] errs /= get_k each_errs.
apply: (@for_each _ _
          (fun it => dict_get (BoxTracker.tracks self) it.1 = Some it.2)
          (each (pairing self t boxes))) => //; first exact: each_items.
case=> i2 trk errs' /= get_i each_errs'.
rewrite dict_get_predictions get_i [omap _ _]/=.
case eq_predict: (Track.predict trk t) => [x1 P1].
case: eqP => // eq_l; case: ifP => // below.
apply: each_rcons => //; exists l1, c1, trk; split=> //.
by rewrite eq_predict.
Qed.

Lemma greedy_each (P : cand -> Prop) errs final :
  greedy errs final -> each P errs -> each P final.
Proof.
elim=> // pre m post final' _ _ IHrun each_errs /=.
have [_ [Pm _]] := (each_cat P pre (m :: post)).1 each_errs.
by split=> //; apply: IHrun; apply: each_filter.
Qed.

Lemma matches_pairing self t boxes :
  uniq (keys (BoxTracker.tracks self)) ->
  each (pairing self t boxes) (matches self t boxes).
Proof.
move=> uniq_self; have [_ run _] := matches_total self t boxes.
exact: greedy_each run (candidates_pairing t boxes uniq_self).
Qed.

(** The track [mapper] holds for each committed detection. *)
Lemma mapper_of_get final :
  uniq [seq c.1.1 | c <- final] ->
  each (fun c => dict_get (mapper_of final) c.1.1 = Some c.1.2) final.
Proof.
rewrite /mapper_of; move: [::] => mapper.
elim: final mapper => //= c final IHfinal mapper /andP[kN_final uniq_k].
split; last exact: IHfinal.
elim: final (dict_set _ _ _) kN_final {IHfinal uniq_k}
    (dict_set_get mapper c.1.1 c.1.2 c.1.1) => [|c' final IH] mapper' /=.
  by rewrite eqxx.
rewrite in_cons negb_or => /andP[ne_k kN_final] get_k; apply: IH => //.
by rewrite dict_set_get eq_sym (negPf ne_k).
Qed.

Lemma seq_get_match_ids mapper n k boxes p j :
  p < size boxes -> dict_get mapper (k + p) = Some j ->
  seq_get (match_ids mapper n k boxes) p = Some j.
Proof.
elim: boxes n k p => // b boxes IHboxes n k [|p] /=.
  by rewrite addn0 => _ ->.
rewrite ltnS addnS -addSn => lt_p get_p.
by case: dict_get => [j'|]; apply: IHboxes.
Qed.

Lemma matches_assigned self t boxes mid match_ :
  inv self -> BoxTracker.assign self t boxes = (mid, Return match_) ->
  each (fun c => pairing self t boxes c
                 /\ seq_get match_ c.1.1 = Some c.1.2)
       (matches self t boxes).
Proof.
move=> inv_self E; have /andP[uniq_self _] := inv_self.
have [self1 _ [-> _ _ _]] := assign_return inv_self E.
have [_ run all_final] := matches_total self t boxes.
have /andP[uniq_k _] := greedy_uniq run.
have := mapper_of_get uniq_k; have := matches_pairing t boxes uniq_self.
elim: (matches self t boxes) (mapper_of _) all_final => //= c final IH mapper.
case/andP=> /and3P[_ _ lt_k] all_final [pair_c each_final] [get_c get_final].
by split; [split=> //; apply: seq_get_match_ids | apply: IH].
Qed.

(** X15.  Every committed match pairs a detection with a live track of the
    same label at a cost below the cutoff, and [match] gives the detection
    the id of that track. *)
Theorem matches_are_sound self t boxes mid match_ :
  inv self -> BoxTracker.assign self t boxes = (mid, Return match_) ->
  each (fun c => pairing self t boxes c
                 /\ seq_get match_ c.1.1 = Some c.1.2)
       (matches self t boxes).
Proof. exact: matches_assigned. Qed.

(** X16.  The first candidate of smallest cost is always committed: its
    detection gets the id of its track. *)
Theorem best_candidate_committed self t boxes mid match_ pre m post :
  inv self -> BoxTracker.assign self t boxes = (mid, Return match_) ->
  candidates self t boxes = pre ++ m :: post -> first_min pre m post ->
  pairing self t boxes m /\ seq_get match_ m.1.1 = Some m.1.2.
Proof.
move=> inv_self E eq_errs min_m; have := matches_assigned inv_self E.
have [_ /greedy_inv + _] := matches_total self t boxes.
rewrite eq_errs; case eq_cs: (pre ++ m :: post) => [|c cs].
  by case: (pre) eq_cs.
case=> pre' [m' [post' [final' [eq' -> min_m' _]]]] /= [].
rewrite -eq_cs in eq'.
by have [_ -> _] := first_min_inj eq' min_m min_m'.
Qed.

End PairingTheory.

Section FrameExtras.
Variable real : realFieldType.
Variable label : eqType.
Notation track := (Track.obj real label 4).
Notation registry := (BoxTracker.obj real label).
Notation entry := (BoxTracker.entry real label).
Notation cand := (BoxTracker.cand real).
Implicit Types (self mid : registry) (t : real) (boxes : seq entry).
Local Open Scope nat_scope.
Local Arguments box_overlap : simpl never.

Lemma all_zip2 (B : Type) (p : pred B) (ks : seq nat) (ys : seq B) :
  all p ys -> all (fun kb => p kb.2) (zip ks ys).
Proof.
elim: ys ks => [|y ys IHys] [|k ks] //= /andP[-> p_ys] /=.
exact: IHys.
Qed.

Lemma candidates_no_label self t boxes :
  no_common_label self boxes -> candidates self t boxes = [::].
Proof.
move=> no_label; rewrite /candidates /BoxTracker.pairs.
apply: (@for_inv _ _
          (fun kb : nat * entry =>
             all (fun it : nat * track => kb.2.1 != Track.l it.2)
                 (BoxTracker.tracks self))
          (fun errs => errs = [::])) => //.
  exact: (@all_zip2 _ (fun b : entry =>
            all (fun it : nat * track => b.1 != Track.l it.2)
                (BoxTracker.tracks self))).
case=> k1 [l1 c1] errs /= no_l1 ->.
apply: (@for_inv _ _ (fun it : nat * track => l1 != Track.l it.2)
          (fun errs => errs = [::])) => //.
case=> i2 trk errs' /= /negPf ne_l ->.
by case: dict_get => [[x1 P1]|] //; rewrite ne_l.
Qed.

Lemma match_ids_nil n k boxes :
  match_ids [::] n k boxes = iota n (size boxes).
Proof. by elim: boxes n k => //= _ boxes IH n k; rewrite IH. Qed.

Lemma size_new_tracks_nil (kalman : KalmanTracker.obj real 4) length t n k
    boxes :
  size (new_tracks kalman length t [::] n k boxes) = size boxes.
Proof. by elim: boxes n k => //= -[l c] boxes IH n k; rewrite /= IH. Qed.

(** X17.  Detections whose labels are the label of no track all get new ids,
    whatever their boxes, and no track of the registry is changed. *)
Theorem unknown_labels_spawn self t boxes :
  inv self -> no_common_label self boxes ->
  exists mid,
    [/\ BoxTracker.assign self t boxes
          = (mid, Return (iota (BoxTracker.nextid self) (size boxes))),
        BoxTracker.nextid mid = BoxTracker.nextid self + size boxes
      & forall i, i \in keys (BoxTracker.tracks self) ->
          dict_get (BoxTracker.tracks mid) i
          = dict_get (BoxTracker.tracks self) i].
Proof.
move=> inv_self no_label.
have eq_final : matches self t boxes = [::].
  by rewrite /matches candidates_no_label.
case E: (BoxTracker.assign self t boxes) => [mid [match_|e]]; last first.
  move: E; rewrite assignE eq_final /=.
  have := create_total self t boxes [::].
  by case: BoxTracker.create => [[[? ?] ?] r] [->].
have [self1] := assign_return inv_self E; rewrite eq_final /=.
case=> -[<-] _ _ _ [eq_match _ eq_next eq_tracks]; exists mid.
rewrite eq_match eq_next eq_tracks match_ids_nil size_new_tracks_nil.
split=> // i i_old.
by rewrite dict_get_cat i_old.
Qed.

(** X18.  A successful [update] does not touch the tracks it did not match:
    such a track is kept as it was, or evicted as it was when it is stale. *)
Theorem unmatched_tracks_untouched self t boxes self' match_ done i trk :
  inv self ->
  BoxTracker.update self t boxes = (self', Return (match_, done)) ->
  dict_get (BoxTracker.tracks self) i = Some trk ->
  i \notin matched self t boxes ->
  if stale self t (i, trk) then
    dict_get done i = Some trk /\ i \notin keys (BoxTracker.tracks self')
  else
    dict_get (BoxTracker.tracks self') i = Some trk /\ i \notin keys done.
Proof.
move=> inv_self; rewrite updateE //.
case E: BoxTracker.assign => [mid [m|e]] // [<- _ <-] get_i iN_final.
have [self1 [_ [_ keys1] frame1 _] [_ [eq_timeout _ _ _] _ tracks']] :=
  assign_return inv_self E.
have i_old : i \in keys (BoxTracker.tracks self) by rewrite -dict_get_mem get_i.
have get_mid : dict_get (BoxTracker.tracks mid) i = Some trk.
  by rewrite tracks' dict_get_cat keys1 i_old frame1.
have := inv_assign t boxes inv_self; rewrite E => /andP[uniq_mid _].
have -> : stale self t (i, trk) = stale mid t (i, trk).
  by rewrite /stale eq_timeout.
case: ifP => [is_stale|is_fresh] /=.
  split; first exact: dict_filter_keep.
  by apply: dict_filter_drop get_mid _ => //; rewrite is_stale.
split; first by apply: dict_filter_keep => //; rewrite is_fresh.
by apply: dict_filter_drop get_mid _ => //; rewrite is_fresh.
Qed.

(** X19.  With a negative timeout every track matched or created by an
    [update] is evicted by that same call. *)
Theorem negative_timeout_evicts self t boxes self' match_ done i :
  inv self -> (BoxTracker.timeout self < 0)%R ->
  BoxTracker.update self t boxes = (self', Return (match_, done)) ->
  i \in match_ ->
  i \in keys done /\ i \notin keys (BoxTracker.tracks self').
Proof.
move=> inv_self timeout_lt0; rewrite updateE //.
case E: BoxTracker.assign => [mid [m|e]] // [<- <- <-] i_match.
have [trk get_i t_trk] := match_seen inv_self E i_match.
have [_ _ [_ [eq_timeout _ _ _] _ _]] := assign_return inv_self E.
have := inv_assign t boxes inv_self; rewrite E => /andP[uniq_mid _].
have is_stale : stale mid t (i, trk).
  by rewrite /stale /= t_trk eq_timeout gtrDl.
split; first by rewrite -dict_get_mem (dict_filter_keep get_i).
by apply: dict_filter_drop get_i _ => //; rewrite is_stale.
Qed.

End FrameExtras.

Section HistoryExtras.
Variable real : realFieldType.
Variable label : eqType.
Variable ndim : nat.
Notation track := (Track.obj real label ndim).
Implicit Types (trk : track) (l : label) (t : real) (z : 'cV[real]_ndim).
Local Open Scope nat_scope.

Lemma last_is_current_update trk t z :
  0 < capacity trk -> size (history trk) <= capacity trk ->
  last_is_current trk -> last_is_current (Track.update trk t z).1.
Proof.
move=> cap_gt0 le_trk [t0 [z0 last_trk]].
have := history_update t z le_trk.
case E: (Track.update trk t z) => [trk' [e|]] /=.
  have [-> _] := update_raise E => _.
  by exists t0, z0.
move=> eq_hist; exists t, z; rewrite eq_hist /=.
case: eqP => [eq_size|_]; last by rewrite rev_rcons.
case: (history trk) eq_size cap_gt0 => [<- //|s hist _ _] /=.
by rewrite rev_rcons.
Qed.

Lemma size_entries n (v : 'cV[real]_n) : size (entries v) = n.
Proof. by rewrite /entries size_map size_enum_ord. Qed.

Lemma size_hstack3 (h : Track.sample real ndim) :
  size (hstack3 h) = (1 + (ndim + (ndim + ndim))).
Proof.
by case: h => [[[t z] x] P]; rewrite /= size_cat !size_entries.
Qed.

Lemma updates_last trk us :
  0 < capacity trk -> size (history trk) <= capacity trk ->
  last_is_current trk -> last_is_current (updates trk us).1.
Proof.
elim: us trk => [|[t z] us IHus] trk //= cap_gt0 le_trk last_trk.
have := last_is_current_update t z cap_gt0 le_trk last_trk.
have := history_le_update t z le_trk; have := capacity_update trk t z.
case: (Track.update trk t z) => trk1 r /= cap1 le1 last1.
have := IHus trk1; rewrite cap1 => /(_ cap_gt0 le1 last1).
by case: (updates trk1 us).
Qed.

(** X9.  With a capacity of at least 1, the last sample of the history
    always holds the current [x] and [P] of the track, also after calls of
    [update] that raised. *)
Theorem history_last_is_current kalman length l t z us :
  0 < length ->
  last_is_current (updates (Track.init kalman length l t z) us).1.
Proof.
case: length => // n _; apply: updates_last => //.
by exists t, z.
Qed.

Lemma dataframeE trk :
  dataframe trk =
  if history trk is [::] then Raise ValueError
  else if ndim == 4 then
    Return (Frame dataframe_columns [seq hstack3 h | h <- history trk])
  else Raise ValueError.
Proof.
rewrite /dataframe /history; case: (items _) => [|h hist] //.
have same_size (h' : Track.sample real ndim) :
    size (hstack3 h') = 1 + (ndim + (ndim + ndim)) by exact: size_hstack3.
have eq13 : (1 + (ndim + (ndim + ndim)) == 13) = (ndim == 4).
  by rewrite -[13]/(1 + 3 * 4) eqn_add2l addnn -mul2n -mulSn eqn_pmul2l.
rewrite /np_vstack /= eqxx /= all_map.
have -> : all (preim (@hstack3 real ndim)
                 (fun r' : seq real => size r' == size (hstack3 h))) hist.
  by apply/allP => h' _; rewrite /= !same_size.
rewrite /pd_DataFrame /= same_size eq13 all_map; case: eqP => // eq_ndim /=.
have -> // : all (preim (@hstack3 real ndim) (fun r : seq real => size r == 13)) hist.
by apply/allP => h' _; rewrite /= same_size eq13 eq_ndim.
Qed.

(** X11.  [dataframe] of a track of another dimension than 4 raises
    [ValueError]: its rows do not have 13 values. *)
Theorem dataframe_needs_ndim4 trk :
  ndim != 4 -> dataframe trk = Raise ValueError.
Proof. by rewrite dataframeE => /negPf->; case: (history trk). Qed.

End HistoryExtras.

Section DataFrameRows.
Variable real : realFieldType.
Variable label : eqType.
Notation track := (Track.obj real label 4).
Local Open Scope nat_scope.

(** X10.  [dataframe] of a track of dimension 4: with capacity 0 it raises
    [ValueError] (there is no row to stack); otherwise it returns the 13
    columns and one row (t, z, x) per sample of the history, oldest first:
    min (k + 1, capacity) rows after [k] calls of [update] that returned. *)
Theorem dataframe_rows (kalman : KalmanTracker.obj real 4) length
    (l : label) t z us :
  let: (trk, k) := updates (Track.init kalman length l t z) us in
  if length is 0 then dataframe trk = Raise ValueError
  else exists2 df,
         dataframe trk = Return df
         & [/\ size (columns df) = 13,
               values df = [seq hstack3 h | h <- history trk],
               size (values df) = minn k.+1 length
             & all (fun r => size r == 13) (values df)].
Proof.
have le0 := history_le_init kalman length l t z.
have := updates_history us le0; rewrite history_init capacity_init.
case: (updates _ us) => trk k [_ size_trk _].
rewrite dataframeE /=; case: length size_trk {le0} => [|n] /= size_trk.
  by case: (history trk) size_trk.
case: (history trk) size_trk => [|h hist] size_trk.
  by rewrite add1n minnSS in size_trk.
eexists; first by [].
split=> //; first by move: size_trk; rewrite /= size_map add1n => ->.
rewrite -[values _]/([seq hstack3 h' | h' <- h :: hist]) all_map.
by elim: (h :: hist) => //= h' hist' ->; rewrite size_hstack3.
Qed.

End DataFrameRows.

Section CountExtras.
Variable real : realFieldType.
Variable label : eqType.
Notation track := (Track.obj real label 4).
Notation registry := (BoxTracker.obj real label).
Notation entry := (BoxTracker.entry real label).
Notation cand := (BoxTracker.cand real).
Implicit Types (self mid : registry) (t : real) (boxes : seq entry).
Implicit Types (final : seq cand) (mapper : dict nat).
Local Open Scope nat_scope.

Lemma keys_foldl_set final mapper :
  uniq (keys mapper ++ [seq c.1.1 | c <- final]) ->
  keys (foldl (fun m (c : cand) => dict_set m c.1.1 c.1.2) mapper final)
  = keys mapper ++ [seq c.1.1 | c <- final].
Proof.
elim: final mapper => [|c final IH] mapper /=; first by rewrite cats0.
move=> uniq_k; have := uniq_k; rewrite cat_uniq /= negb_or -andbA.
case/and4P=> _ kN_mapper _ _.
by rewrite IH keys_dict_set (negPf kN_mapper) ?cat_rcons.
Qed.

Lemma size_new_tracks (kalman : KalmanTracker.obj real 4) length t mapper
    n k boxes :
  size (new_tracks kalman length t mapper n k boxes)
  = count (fun k' => k' \notin keys mapper) (iota k (size boxes)).
Proof.
elim: boxes n k => //= -[l c] boxes IH n k; rewrite -dict_get_mem.
by case: dict_get => [j|] /=; rewrite IH.
Qed.

Lemma count_below (ks : seq nat) n :
  uniq ks -> all (fun k => k < n) ks ->
  count (fun k => k \in ks) (iota 0 n) = size ks.
Proof.
move=> uniq_ks /allP lt_ks; rewrite -size_filter; apply/perm_size/uniq_perm.
- exact/filter_uniq/iota_uniq.
- exact: uniq_ks.
move=> k; rewrite mem_filter mem_iota /= add0n.
by case k_in: (k \in ks) => //=; apply: lt_ks.
Qed.

(** X20.  In a successful [update] the matches are at most as many as the
    detections and as the tracks, and the counter and the number of tracks
    grow, before eviction, by the number of unmatched detections. *)
Theorem update_counts self t boxes mid match_ :
  inv self -> BoxTracker.assign self t boxes = (mid, Return match_) ->
  let m := size (matches self t boxes) in
  [/\ m <= size boxes, m <= size (BoxTracker.tracks self),
      BoxTracker.nextid mid = BoxTracker.nextid self + (size boxes - m)
    & size (BoxTracker.tracks mid)
      = size (BoxTracker.tracks self) + (size boxes - m)].
Proof.
move=> inv_self E m; have /andP[uniq_self _] := inv_self.
have [self1 [_ [_ keys1] _ _] [_ _ -> ->]] := assign_return inv_self E.
have [_ run all_final] := matches_total self t boxes.
have /andP[uniq_k uniq_j] := greedy_uniq run.
have lt_k : all (fun k => k < size boxes) [seq c.1.1 | c <- matches self t boxes].
  by rewrite all_map; apply: sub_all all_final => c /and3P[].
have in_j : {subset [seq c.1.2 | c <- matches self t boxes]
                <= keys (BoxTracker.tracks self)}.
  move=> j; have: all (fun j => j \in keys (BoxTracker.tracks self))
                      [seq c.1.2 | c <- matches self t boxes].
    by rewrite all_map; apply: sub_all all_final => c /and3P[].
  by move/allP; apply.
have eq_m : count (fun k => k \in keys (mapper_of (matches self t boxes)))
                  (iota 0 (size boxes)) = m.
  by rewrite /mapper_of keys_foldl_set // count_below // size_map.
have le_m : m <= size boxes.
  by rewrite -eq_m -[X in _ <= X](size_iota 0) count_size.
have eq_born : size (new_tracks (BoxTracker.kalman self)
    (BoxTracker.length self) t (mapper_of (matches self t boxes))
    (BoxTracker.nextid self) 0 boxes) = size boxes - m.
  have := count_predC
            (fun k => k \in keys (mapper_of (matches self t boxes)))
            (iota 0 (size boxes)).
  rewrite size_iota size_new_tracks eq_m => eq_n.
  by apply/eqP; rewrite -(eqn_add2l m) subnKC // eq_n.
rewrite size_cat eq_born; split=> //.
- by rewrite /m -(size_map (fun c => c.1.2)) -(size_map fst) uniq_leq_size.
by rewrite -(size_map fst (BoxTracker.tracks self1)) -/(keys _) keys1 size_map.
Qed.

End CountExtras.

Section InnovationExtras.
Variable real : realFieldType.
Variable ndim : nat.
Implicit Types (sigma_z sigma_v : 'rV[real]_ndim).
Implicit Types (x : 'cV[real]_(ndim + ndim)) (P : 'M[real]_(ndim + ndim)).
Implicit Types (z : 'cV[real]_ndim) (dt : real).

(** X4.  Over exact arithmetic, a measurement equal to the predicted
    position does not correct the prediction: a returning [update] gives the
    predicted state. *)
Theorem update_consistent_measurement sigma_z sigma_v x P dt x2 P2 :
  let kalman := KalmanTracker.init sigma_z sigma_v in
  let x1 := (KalmanTracker.predict kalman x P dt).1 in
  KalmanTracker.update kalman x P (usubmx x1) dt = Return (x2, P2) ->
  x2 = x1.
Proof.
move=> kalman x1; rewrite /KalmanTracker.update /np_solve /x1 /kalman.
rewrite predictE /=; case: ifP => // _ [<- _].
by rewrite -observe_position mulmxBl mul1mx -mulmxA subrK.
Qed.

Lemma qform_delta n (M : 'M[real]_n) i : qform M (delta_mx 0 i) = M i i.
Proof.
rewrite /qform -rowE mxE (bigD1 i) //= !mxE !eqxx mulr1 big1 ?addr0 //.
by move=> j /negPf ne_j; rewrite !mxE eqxx ne_j mulr0.
Qed.

(** X5.  Over exact arithmetic, a measurement never increases the
    uncertainty: when [update] returns, the predicted covariance minus the
    updated one is positive semi-definite, and no variance on the diagonal
    has grown. *)
Theorem update_shrinks_covariance sigma_z sigma_v x P z dt x2 P2 :
  symmetric P -> psd P ->
  let kalman := KalmanTracker.init sigma_z sigma_v in
  let P1 := (KalmanTracker.predict kalman x P dt).2 in
  KalmanTracker.update kalman x P z dt = Return (x2, P2) ->
  psd (P1 - P2) /\ forall i, P2 i i <= P1 i i.
Proof.
move=> symP psdP kalman P1; rewrite /KalmanTracker.update /np_solve.
rewrite /P1 /kalman predictE /= => {P1 kalman}.
set H := row_mx 1%:M 0; set R := diag_mx _; set P1 := _ *m P *m _.
set A := H *m P1 *m H^T + R.
have symP1 : symmetric P1 by exact: symmetric_congr.
have psdP1 : psd P1 by exact: psd_congr.
have symR : symmetric R by exact: symmetric_diag.
have psdR : psd R by exact: psd_diag_square.
case: ifP => // unitA [_ <-].
set K := (invmx A *m _)^T.
have eq_K : K = P1 *m H^T *m invmx A by exact: gainE.
have solves : K *m A = P1 *m H^T by exact: gain_solves.
have psdA : psd A by apply: psdD => //; apply: psd_congr.
have eq_diff : P1 - (1%:M - K *m H) *m P1 = K *m A *m K^T.
  rewrite mulmxBl mul1mx opprB addrCA subrr addr0 solves.
  rewrite eq_K trmx_mul trmx_inv gain_symA // trmx_mul trmxK symP1.
  by rewrite !mulmxA.
have psd_diff : psd (P1 - (1%:M - K *m H) *m P1).
  by rewrite eq_diff; apply: psd_congr.
split=> // i; rewrite -subr_ge0.
by have := psd_diff (delta_mx 0 i); rewrite qform_delta !mxE.
Qed.

End InnovationExtras.

Section PredictExtras.
Variable real : realFieldType.
Variable label : eqType.
Variable ndim : nat.
Notation track := (Track.obj real label ndim).

(** X8.  The prediction of a track at the time of its last update is its
    current state and covariance. *)
Theorem predict_at_own_time (trk : track) sigma_z sigma_v :
  Track.kalman trk = KalmanTracker.init sigma_z sigma_v ->
  Track.predict trk (Track.t trk) = (Track.x trk, Track.P trk).
Proof.
move=> eq_kalman; rewrite /Track.predict eq_kalman predictE subrr.
by rewrite transition0 trmx1 !mul1mx mulmx1.
Qed.

(** X24.  A track that was never updated is predicted at rest: at every time
    [t'], before or after its creation, its predicted state is the box it
    was created from, with velocity 0. *)
Theorem new_track_at_rest (sigma_z sigma_v : 'rV[real]_ndim) length
    (l : label) t z t' :
  let trk := Track.init (KalmanTracker.init sigma_z sigma_v) length l t z in
  (Track.predict trk t').1 = col_mx z 0.
Proof.
move=> trk; rewrite /Track.predict -[Track.x trk]/(col_mx z 0).
rewrite -[Track.kalman trk]/(KalmanTracker.init sigma_z sigma_v).
have := predict_at_rest sigma_z sigma_v z (Track.P trk) (t' - Track.t trk).
by case: KalmanTracker.predict.
Qed.

End PredictExtras.

Section ShiftExtras.
Variable real : realFieldType.

Lemma box_area_shift (l t r b dx dy : real) :
  box_area (l + dx) (t + dy) (r + dx) (b + dy) = box_area l t r b.
Proof.
rewrite /box_area !opprD [r + dx + _]addrACA [b + dy + _]addrACA.
by rewrite !subrr !addr0.
Qed.

(** X7.  Over exact arithmetic, the cost is invariant under translation of
    both boxes. *)
Theorem box_overlap_shift (l1 t1 r1 b1 l2 t2 r2 b2 dx dy : real) :
  box_overlap (l1 + dx, t1 + dy, r1 + dx, b1 + dy)
              (l2 + dx, t2 + dy, r2 + dx, b2 + dy)
  = box_overlap (l1, t1, r1, b1) (l2, t2, r2, b2).
Proof.
by rewrite /box_overlap -!addr_maxl -!addr_minl !box_area_shift.
Qed.

End ShiftExtras.

Section MoreExamples.
Variable real : realFieldType.
Variable label : eqType.
Notation track := (Track.obj real label 4).
Notation registry := (BoxTracker.obj real label).
Notation entry := (BoxTracker.entry real label).
Local Arguments box_overlap : simpl never.
Local Notation unit_box := (unit_box real).

(** Without measurement noise the solve succeeds for the identity
    covariance and [dt = 0]. *)
Lemma update_unit_covariance ndim (sigma_v : 'rV[real]_ndim) x z :
  exists x2 P2,
    KalmanTracker.update (KalmanTracker.init 0 sigma_v) x 1%:M z 0
    = Return (x2, P2).
Proof.
rewrite /KalmanTracker.update predictE /np_solve /=.
rewrite transition0 trmx1 !mul1mx np_square0.
have -> : diag_mx (0 : 'rV[real]_ndim) = 0.
  by apply/matrixP => i j; rewrite !mxE mul0rn.
rewrite addr0 !mulmx1 tr_row_mx mul_row_col trmx1 trmx0 mulmx0 addr0 mulmx1 unitmx1.
by eexists; eexists.
Qed.

(** A registry with one track, made from the unit box at time 0, and a
    detection of the same label and box. *)
Lemma candidates_one_track (timeout cutoff : real) length (l : label)
    (others : seq entry) t :
  0 < cutoff -> all (fun b : entry => b.1 != l) others ->
  let self := (BoxTracker.add (BoxTracker.init label timeout cutoff length)
                              l 0 unit_box).1 in
  candidates self t ((l, unit_box) :: others) = [:: (0%N, 0%N, Fin 0)].
Proof.
move=> cutoff_gt0 others_ne self.
rewrite /candidates /BoxTracker.pairs /=.
rewrite eqxx mul_block_col !mul1mx !mulmx0 mul0mx !addr0 col_mxKu.
rewrite edges_unit_box box_overlap_same ?area_unit_box //= cutoff_gt0 /=.
rewrite /enumerate /=.
elim: others (iota _ _) others_ne => [|[l' c'] others IH] [|k ks] //=.
by case/andP=> /negPf-> /IH.
Qed.

Lemma sound_one_track (timeout cutoff : real) length (l : label) t z :
  sound (BoxTracker.add (BoxTracker.init label timeout cutoff length)
                        l t z).1.
Proof.
have [noisy_self every_self] := sound_default label timeout cutoff length.
split=> //=; split=> //.
exact: (sound_init (kalman_args real).1 (kalman_args real).2).
Qed.

Lemma update_first_frame_expired (timeout cutoff : real) length (l : label)
    z t :
  timeout < 0 ->
  let self := BoxTracker.init label timeout cutoff length in
  let trk := Track.init (BoxTracker.kalman self) length l t z in
  BoxTracker.update self t [:: (l, z)]
  = (BoxTracker.Obj timeout cutoff length (BoxTracker.kalman self) 1 [::],
     Return ([:: 0%N], [:: (0%N, trk)])).
Proof.
move=> timeout_lt0 self trk.
have is_stale : t + timeout < t by rewrite gtrDl.
by rewrite /BoxTracker.update /BoxTracker.evict /= !is_stale.
Qed.

End MoreExamples.

Section StepTheory.
Variable real : realFieldType.
Variable label : eqType.
Notation track := (Track.obj real label 4).
Notation registry := (BoxTracker.obj real label).
Notation entry := (BoxTracker.entry real label).
Notation cand := (BoxTracker.cand real).
Implicit Types (self : registry) (t : real) (boxes : seq entry).
Implicit Types (I : registry -> Prop).
Local Open Scope nat_scope.

(** What [update] does to the registry is made of three steps: a track of
    the registry is updated in place, a track is added, a track is
    popped. *)
Lemma update_steps I self t boxes :
  (forall self j trk z,
     I self -> dict_get (BoxTracker.tracks self) j = Some trk ->
     I (BoxTracker.set_tracks self
          (dict_set (BoxTracker.tracks self) j (Track.update trk t z).1))) ->
  (forall self l z, I self -> I (BoxTracker.add self l t z).1) ->
  (forall self i, I self -> I (BoxTracker.pop self i).1) ->
  I self -> I (BoxTracker.update self t boxes).1.
Proof.
move=> I_commit I_add I_pop I_self.
rewrite /BoxTracker.update /BoxTracker.assign.
case: BoxTracker.pairs => errs [e|] //=.
case: BoxTracker.unravel => final [e|] //=.
have : I (BoxTracker.commit self t boxes final).1.1.
  apply: (@for_inv _ _ xpredT (fun s : registry * dict nat => I s.1));
    rewrite ?all_predT //.
  case=> [[k j] e] [self1 mapper] _ /= I1.
  case: seq_get => [[l z]|] //; case get_j: dict_get => [trk|] //.
  have := I_commit self1 j trk z I1 get_j.
  by case: Track.update => trk' [ex|].
case: BoxTracker.commit => [[self1 mapper] [e|]] //= I1.
have : I (BoxTracker.create self1 t boxes mapper).1.1.1.
  apply: (@for_inv _ _ xpredT
            (fun s : registry * dict nat * seq nat => I s.1.1));
    rewrite ?all_predT //.
  case=> k [l z] [[self2 mapper2] match2] _ /= I2.
  have := I_add self2 l z I2.
  case: ifP => _; first by rewrite /BoxTracker.add /=; case: dict_get.
  by case: dict_get.
case: BoxTracker.create => [[[self2 mapper2] match2] [e|]] //= I2.
have : I (BoxTracker.evict self2 t).1.1.
  apply: (@for_inv _ _ xpredT (fun s : registry * dict track => I s.1));
    rewrite ?all_predT //.
  move=> i [self3 done] _ /= I3; have := I_pop self3 i I3.
  by rewrite /BoxTracker.evict_body; case: BoxTracker.pop => self4 [trk|e].
by case: BoxTracker.evict => [[self3 done] [e|]].
Qed.

Lemma run_steps I self (cs : seq (call real label)) :
  (forall self t j trk z,
     I self -> dict_get (BoxTracker.tracks self) j = Some trk ->
     I (BoxTracker.set_tracks self
          (dict_set (BoxTracker.tracks self) j (Track.update trk t z).1))) ->
  (forall self l t z, I self -> I (BoxTracker.add self l t z).1) ->
  (forall self i, I self -> I (BoxTracker.pop self i).1) ->
  I self -> I (run self cs).1.
Proof.
move=> I_commit I_add I_pop; elim: cs self => [|c cs IHcs] self I_self //=.
have I1 : I (step self c).1.
  case: c => [l t z|i|t boxes] /=.
  - exact: I_add.
  - exact: I_pop.
  have := @update_steps I self t boxes (fun self => I_commit self t)
            (fun self l => I_add self l t) I_pop I_self.
  by case: BoxTracker.update.
case: (step self c) I1 => self1 ids1 /= /IHcs.
by case: (run self1 cs).
Qed.

Lemma update_keeps_label (trk : track) t z :
  Track.l (Track.update trk t z).1 = Track.l trk.
Proof. by rewrite /Track.update; case: KalmanTracker.update => [[x2 P2]|e]. Qed.

Lemma run_labelled i (l : label) self (cs : seq (call real label)) :
  labelled i l self -> labelled i l (run self cs).1.
Proof.
apply: run_steps => {}self.
- move=> t j trk z [lt_i l_i] get_j; split=> //= trk'.
  rewrite dict_set_get; case: eqP => [eq_j [<-]|_]; last exact: l_i.
  by rewrite update_keeps_label; apply: l_i; rewrite -eq_j.
- move=> l' t z [lt_i l_i]; split=> /= [|trk']; first exact: ltnW.
  by rewrite dict_set_get gtn_eqF //; apply: l_i.
move=> j [lt_i l_i]; rewrite /BoxTracker.pop /dict_pop.
case: dict_get => [trk|] //=; split=> //= trk'.
by rewrite (@dict_get_filter _ (fun k => k != j)); case: ifP => // _; apply: l_i.
Qed.

(** X21.  An id names tracks of one label only: whatever calls of [add],
    [pop] and [update] follow, returning or raising, a track found under the
    id of a track of the registry has the label of that track. *)
Theorem id_keeps_label self (cs : seq (call real label)) i trk trk' :
  inv self ->
  dict_get (BoxTracker.tracks self) i = Some trk ->
  dict_get (BoxTracker.tracks (run self cs).1) i = Some trk' ->
  Track.l trk' = Track.l trk.
Proof.
case/andP=> _ /allP old get_i.
have lt_i : i < BoxTracker.nextid self.
  by apply: old; rewrite -dict_get_mem get_i.
have [|_] := @run_labelled i (Track.l trk) self cs; last exact.
by split=> // trk0; rewrite get_i => -[<-].
Qed.

(** X22.  No call of [add], [pop] or [update], returning or raising, changes
    the timeout, the cutoff, the history length or the filter of the
    registry. *)
Theorem config_never_changes self (cs : seq (call real label)) :
  same_config self (run self cs).1.
Proof.
apply: (@run_steps (same_config self)); last by split.
- by move=> self1 t j trk z [e1 e2 e3 e4] _; split.
- by move=> self1 l t z [e1 e2 e3 e4]; split.
move=> self1 i [e1 e2 e3 e4]; rewrite /BoxTracker.pop.
by case: dict_pop => [[trk d]|]; split.
Qed.

(** X23.  Every track of the registry holds the filter of the registry, when
    the tracks it started from did. *)
Theorem tracks_share_filter self (cs : seq (call real label)) i trk :
  (forall j trk0, dict_get (BoxTracker.tracks self) j = Some trk0 ->
     Track.kalman trk0 = BoxTracker.kalman self) ->
  dict_get (BoxTracker.tracks (run self cs).1) i = Some trk ->
  Track.kalman trk = BoxTracker.kalman self.
Proof.
move=> share_self.
pose I (self' : registry) :=
  BoxTracker.kalman self' = BoxTracker.kalman self
  /\ forall j trk0, dict_get (BoxTracker.tracks self') j = Some trk0 ->
       Track.kalman trk0 = BoxTracker.kalman self.
have [_ share_run] : I (run self cs).1; last exact: share_run.
apply: run_steps; last by split.
- move=> self1 t j trk1 z [eq_kalman share1] get_j; split=> //= j0 trk0.
  rewrite dict_set_get; case: eqP => [_ [<-]|_]; last exact: share1.
  rewrite -(share1 j trk1 get_j) /Track.update.
  by case: KalmanTracker.update => [[x2 P2]|e].
- move=> self1 l t z [eq_kalman share1]; split=> //= j0 trk0.
  by rewrite dict_set_get; case: eqP => [_ [<-]|_] //; apply: share1.
move=> self1 j [eq_kalman share1]; rewrite /BoxTracker.pop /dict_pop.
case: dict_get => [trk1|] //=; split=> //= j0 trk0.
rewrite (@dict_get_filter _ (fun k => k != j)); case: ifP => // _.
exact: share1.
Qed.

End StepTheory.

(** * Instances *)

Section Instances.
Local Notation real := rat.
Local Notation label := nat.

(** C2: two boxes of area 0 have no cost: the quotient is 0/0. *)
Lemma box_overlap_degenerate :
  box_overlap (0, 0, 0, 0) (0, 0, 0, 0) = NaN :> npfloat rat
  /\ box_overlap (0, 0, 0, 0) (0, 0, 0, 0) <> Fin (1 : rat).
Proof.
have -> : box_overlap (0, 0, 0, 0) (0, 0, 0, 0) = NaN :> npfloat rat.
  by rewrite /box_overlap /box_area !(maxxx, minxx, subrr, mulr0) /np_div eqxx.
by [].
Qed.

(** C10: with capacity 0 the history of a new track is empty. *)
Lemma history_empty_capacity0 :
  history (Track.init (KalmanTracker.init 0 0 : KalmanTracker.obj rat 1)
                      0 0%N 0 0) = [::].
Proof. by []. Qed.



Lemma box_overlap_cost_witness :
  exists2 cost : real,
    box_overlap (0, 0, 10%:R, 10%:R) (1, 0, 11%:R, 10%:R) = Fin cost
    & 0 <= cost <= 1.
Proof.
have [|eq_cost range _ _ _] :=
  @box_overlap_cost real 0 0 10%:R 10%:R 1 0 11%:R 10%:R.
  by rewrite lt_max /box_area !subr0 (max_idPr _) ?mulr_gt0 ?ltr0n ?ler0n.
by eexists; [exact: eq_cost | exact: range].
Defined.

Lemma association_greedy_witness :
  let errs : seq (BoxTracker.cand real) :=
    [:: (0%N, 0%N, Fin 1%:R); (1%N, 0%N, Fin 0%:R); (1%N, 1%N, Fin 2%:R)] in
  exists final, BoxTracker.unravel (size errs) errs [::] = (final, None)
                /\ greedy errs final.
Proof.
move=> errs.
have [|final [eq_final run _]] := @association_greedy real 3%:R errs.
  by apply/and4P; split=> //; rewrite /np_lt ltr_nat.
exists final; split; [exact: eq_final | exact: run].
Defined.

Lemma eviction_after_matching_witness :
  let self := BoxTracker.init label (2 : real) (1 / 5%:R) 250 in
  let boxes := [:: (0%N, unit_box real); (1%N, unit_box real)] in
  exists self' done,
    BoxTracker.update self 0 boxes = (self', Return ([:: 0%N; 1%N], done))
    /\ 0%N \notin keys done.
Proof.
move=> self boxes.
have [inv_self [E _]] :=
  @update_first_frame real label 2 (1 / 5%:R) 250 0%N 1%N
                      (unit_box real) (unit_box real) 0 (ler0n _ 2).
have [eq_update kept] := eviction_after_matching inv_self E.
have [//|//|trk [_ _ _ notin_done]] := kept _ 0%N.
by eexists; eexists; split; [exact: eq_update | exact: notin_done].
Defined.

Lemma update_ids_distinct_witness :
  let self := BoxTracker.init label (2 : real) (1 / 5%:R) 250 in
  let boxes := [:: (0%N, unit_box real); (1%N, unit_box real)] in
  exists self' match_ done,
    BoxTracker.update self 0 boxes = (self', Return (match_, done))
    /\ uniq match_.
Proof.
move=> self boxes.
have [inv_self [_ E]] :=
  @update_first_frame real label 2 (1 / 5%:R) 250 0%N 1%N
                      (unit_box real) (unit_box real) 0 (ler0n _ 2).
have [_ uniq_match _ _ _] := update_ids_distinct inv_self E.
by eexists; eexists; eexists; split; [exact: E | exact: uniq_match].
Defined.

Lemma covariance_symmetric_psd_witness :
  let kalman := KalmanTracker.init (const_mx 1) (const_mx 1)
                : KalmanTracker.obj real 1 in
  symmetric (KalmanTracker.P0 kalman) /\ psd (KalmanTracker.P0 kalman).
Proof.
have sym0 : symmetric (0 : 'M[real]_(1 + 1)) by rewrite /symmetric trmx0.
have psd0 : psd (0 : 'M[real]_(1 + 1)).
  by move=> v; rewrite /qform mulmx0 mul0mx mxE.
by have [_ [symP0 [psdP0 _]]] :=
  @covariance_symmetric_psd real 1 (const_mx 1) (const_mx 1) 0 sym0 psd0.
Defined.

Lemma history_initial_sample_witness :
  let trk := Track.init (noiseless real 1) 2 (0%N : label) 0 0 in
  size (history trk) = 1%N.
Proof.
move=> trk.
by have [_ -> _ _] := @history_initial_sample real label 1 (noiseless real 1)
                        2 0%N 0 0 [::] isT.
Defined.

Local Notation unit_box := (unit_box real).

Lemma update_trusts_measurement_witness :
  let kalman := KalmanTracker.init (0 : 'rV[real]_1) 0 in
  exists x2 P2,
    KalmanTracker.update kalman 0 1%:M 0 0 = Return (x2, P2)
    /\ usubmx x2 = 0.
Proof.
move=> kalman.
have [x2 [P2 E]] := @update_unit_covariance real 1 0 0 0.
have symP : symmetric (1%:M : 'M[real]_(1 + 1)) by rewrite /symmetric trmx1.
exists x2, P2; split; [exact: E | exact: update_trusts_measurement symP E].
Defined.

Lemma update_consistent_measurement_witness :
  let kalman := KalmanTracker.init (0 : 'rV[real]_1) 0 in
  let x1 := (KalmanTracker.predict kalman 0 1%:M 0).1 in
  exists x2 P2,
    KalmanTracker.update kalman 0 1%:M (usubmx x1) 0 = Return (x2, P2)
    /\ x2 = x1.
Proof.
move=> kalman x1.
have [x2 [P2 E]] := @update_unit_covariance real 1 0 0 (usubmx x1).
exists x2, P2; split; [exact: E | exact: update_consistent_measurement E].
Defined.

Lemma update_shrinks_covariance_witness :
  let kalman := KalmanTracker.init (0 : 'rV[real]_1) 0 in
  exists x2 P2,
    KalmanTracker.update kalman 0 1%:M 0 0 = Return (x2, P2)
    /\ psd ((KalmanTracker.predict kalman 0 1%:M 0).2 - P2).
Proof.
move=> kalman.
have [x2 [P2 E]] := @update_unit_covariance real 1 0 0 0.
have symP : symmetric (1%:M : 'M[real]_(1 + 1)) by rewrite /symmetric trmx1.
have psdP : psd (1%:M : 'M[real]_(1 + 1)).
  move=> v; rewrite /qform mulmx1 mxE; apply: sumr_ge0 => i _.
  by rewrite mxE -expr2 sqr_ge0.
have [psd_diff _] := update_shrinks_covariance symP psdP E.
by exists x2, P2; split; [exact: E | exact: psd_diff].
Defined.

Lemma predict_at_own_time_witness :
  let trk := Track.init (noiseless real 1) 2 (0%N : label) 0 0 in
  Track.predict trk 0 = (Track.x trk, Track.P trk).
Proof.
move=> trk.
exact: (@predict_at_own_time real label 1 trk 0 0 (erefl _)).
Defined.

Lemma add_then_pop_witness :
  let self := BoxTracker.init label (2 : real) (1 / 5%:R) 250 in
  let self1 := (BoxTracker.add self 0%N 0 unit_box).1 in
  exists trk,
    dict_get (BoxTracker.tracks self1) 0%N = Some trk
    /\ BoxTracker.pop self1 0%N
       = (BoxTracker.set_tracks self1 (BoxTracker.tracks self), Return trk).
Proof.
move=> self self1.
have [get_i _ eq_pop] := @add_then_pop real label self 0%N 0 unit_box isT.
by eexists; split; [exact: get_i | exact: eq_pop].
Defined.

Lemma update_no_detection_witness :
  let self := (BoxTracker.add (BoxTracker.init label (2 : real) (1 / 5%:R) 250)
                              0%N 0 unit_box).1 in
  exists kept done,
    BoxTracker.update self 1 [::]
    = (BoxTracker.set_tracks self kept, Return ([::], done)).
Proof.
move=> self.
by eexists; eexists; exact: (@update_no_detection real label self 1 isT).
Defined.

Lemma matches_are_sound_witness :
  let self := (BoxTracker.add (BoxTracker.init label (2 : real) (1 / 5%:R) 250)
                              0%N 0 unit_box).1 in
  let boxes := [:: (0%N, unit_box)] in
  exists mid match_,
    BoxTracker.assign self 1 boxes = (mid, Return match_)
    /\ pairing self 1 boxes (0%N, 0%N, Fin 0)
    /\ seq_get match_ 0 = Some 0%N.
Proof.
move=> self boxes.
have cutoff_gt0 : 0 < 1 / 5%:R :> real by rewrite divr_gt0 ?ltr0n.
have sound_self : sound self by exact: sound_one_track.
have [mid [match_ [E _]]] := @sound_assign_returns real label self 1 boxes isT sound_self.
have := @matches_are_sound real label self 1 boxes mid match_ isT E.
rewrite /matches (@candidates_one_track real label 2 _ 250 0%N [::] 1) //=.
by case=> -[pair_c get_c] _; exists mid, match_.
Defined.

Lemma best_candidate_committed_witness :
  let self := (BoxTracker.add (BoxTracker.init label (2 : real) (1 / 5%:R) 250)
                              0%N 0 unit_box).1 in
  let boxes := [:: (0%N, unit_box)] in
  exists mid match_,
    BoxTracker.assign self 1 boxes = (mid, Return match_)
    /\ seq_get match_ 0 = Some 0%N.
Proof.
move=> self boxes.
have cutoff_gt0 : 0 < 1 / 5%:R :> real by rewrite divr_gt0 ?ltr0n.
have sound_self : sound self by exact: sound_one_track.
have [mid [match_ [E _]]] := @sound_assign_returns real label self 1 boxes isT sound_self.
have eq_errs : candidates self 1 boxes = [::] ++ (0%N, 0%N, Fin 0) :: [::].
  exact: (@candidates_one_track real label 2 _ 250 0%N [::] 1).
have [_ get_c] :=
  @best_candidate_committed real label self 1 boxes mid match_ _ _ _
                            isT E eq_errs isT.
by exists mid, match_.
Defined.

Lemma unknown_labels_spawn_witness :
  let self := (BoxTracker.add (BoxTracker.init label (2 : real) (1 / 5%:R) 250)
                              0%N 0 unit_box).1 in
  exists mid,
    BoxTracker.assign self 1 [:: (1%N, unit_box); (2%N, unit_box)]
    = (mid, Return [:: 1%N; 2%N]).
Proof.
move=> self.
have [mid [E _ _]] :=
  @unknown_labels_spawn real label self 1
     [:: (1%N, unit_box); (2%N, unit_box)] isT isT.
by exists mid.
Defined.

Lemma unmatched_tracks_untouched_witness :
  let self := (BoxTracker.add (BoxTracker.init label (2 : real) (1 / 5%:R) 250)
                              0%N 0 unit_box).1 in
  let trk := Track.init (BoxTracker.kalman self) 250 (0%N : label) 0 unit_box in
  exists self' match_ done,
    BoxTracker.update self 1 [:: (1%N, unit_box)]
      = (self', Return (match_, done))
    /\ dict_get (BoxTracker.tracks self') 0%N = Some trk.
Proof.
move=> self trk; pose boxes : seq (BoxTracker.entry real label) := [:: (1%N, unit_box)].
have sound_self : sound self by exact: sound_one_track.
have [self' [match_ [done [E _]]]] :=
  @sound_update_returns real label self 1 boxes isT sound_self.
have notin : 0%N \notin matched self 1 boxes.
  by rewrite /matched /matches (@candidates_no_label real label self 1 boxes).
have := @unmatched_tracks_untouched real label self 1 boxes self' match_ done
          0%N trk isT E (erefl _) notin.
by case=> get_i _; exists self', match_, done.
Defined.

Lemma negative_timeout_evicts_witness :
  let self := BoxTracker.init label (- 1 : real) (1 / 5%:R) 250 in
  exists self' done,
    BoxTracker.update self 0 [:: (0%N, unit_box)]
      = (self', Return ([:: 0%N], done))
    /\ 0%N \in keys done.
Proof.
move=> self.
have timeout_lt0 : BoxTracker.timeout self < 0 by rewrite /= oppr_lt0 ltr01.
have E := @update_first_frame_expired real label (- 1) (1 / 5%:R) 250 0%N
            unit_box 0 timeout_lt0.
have [in_done _] :=
  @negative_timeout_evicts real label self 0 _ _ _ _ 0%N isT timeout_lt0 E isT.
by eexists; eexists; split; [exact: E | exact: in_done].
Defined.

Lemma history_last_is_current_witness :
  let trk := Track.init (noiseless real 1) 2 (0%N : label) 0 0 in
  last_is_current (updates trk [:: (1, 0)]).1.
Proof.
move=> trk.
exact: (@history_last_is_current real label 1 (noiseless real 1) 2 0%N 0 0
          [:: (1, 0)] isT).
Defined.

Lemma dataframe_needs_ndim4_witness :
  dataframe (Track.init (noiseless real 1) 2 (0%N : label) 0 0)
  = Raise ValueError.
Proof.
exact: (@dataframe_needs_ndim4 real label 1 _ isT).
Defined.

Lemma update_counts_witness :
  let self := (BoxTracker.add (BoxTracker.init label (2 : real) (1 / 5%:R) 250)
                              0%N 0 unit_box).1 in
  let boxes := [:: (0%N, unit_box); (1%N, unit_box)] in
  exists mid match_,
    BoxTracker.assign self 1 boxes = (mid, Return match_)
    /\ BoxTracker.nextid mid = 2%N /\ size (BoxTracker.tracks mid) = 2%N.
Proof.
move=> self boxes.
have cutoff_gt0 : 0 < 1 / 5%:R :> real by rewrite divr_gt0 ?ltr0n.
have sound_self : sound self by exact: sound_one_track.
have [mid [match_ [E _]]] := @sound_assign_returns real label self 1 boxes isT sound_self.
have := @update_counts real label self 1 boxes mid match_ isT E.
rewrite /matches
  (@candidates_one_track real label 2 _ 250 0%N [:: (1%N, unit_box)] 1) //=.
by case=> _ _ eq_next eq_size; exists mid, match_.
Defined.

Lemma id_keeps_label_witness :
  let self := (BoxTracker.add (BoxTracker.init label (2 : real) (1 / 5%:R) 250)
                              0%N 0 unit_box).1 in
  let self' := (run self [:: Add 1%N 1 unit_box; Pop real label 5%N]).1 in
  exists2 trk', dict_get (BoxTracker.tracks self') 0%N = Some trk'
              & Track.l trk' = 0%N.
Proof.
move=> self self'.
pose trk := Track.init (BoxTracker.kalman self) 250 (0%N : label) 0 unit_box.
have get_i : dict_get (BoxTracker.tracks self) 0%N = Some trk by [].
have get' : dict_get (BoxTracker.tracks self') 0%N = Some trk by [].
exists trk; first exact: get'.
exact: (@id_keeps_label real label self [:: Add 1%N 1 unit_box; Pop real label 5%N] 0%N
          trk trk isT get_i get').
Defined.

Lemma tracks_share_filter_witness :
  let self := BoxTracker.init label (2 : real) (1 / 5%:R) 250 in
  let self' := (run self [:: Add 0%N 0 unit_box]).1 in
  exists2 trk, dict_get (BoxTracker.tracks self') 0%N = Some trk
             & Track.kalman trk = BoxTracker.kalman self.
Proof.
move=> self self'.
pose trk := Track.init (BoxTracker.kalman self) 250 (0%N : label) 0 unit_box.
have get' : dict_get (BoxTracker.tracks self') 0%N = Some trk by [].
have share_self j (trk0 : Track.obj real label 4) :
    dict_get (BoxTracker.tracks self) j = Some trk0 ->
    Track.kalman trk0 = BoxTracker.kalman self by [].
exists trk; first exact: get'.
exact: (@tracks_share_filter real label self [:: Add 0%N 0 unit_box] 0%N trk
          share_self get').
Defined.

End Instances.
